(** * The command console of the activity log (src/js/console.js)

    A shallow embedding of [Log.console]: the command parser [parseCmd],
    the dispatcher [executeCmd] and the handlers that mutate [user.log]
    and [user.config.ui], followed by the properties established for them.

    JavaScript strings are embedded as [string] (a sequence of bytes of the
    UTF-8 encoding).  The parser only ever tests a character against the
    ASCII space and the ASCII double quote, neither of which occurs inside a
    multi-byte sequence, so scanning bytes and scanning code points commit
    the same arguments. *)

From Stdlib Require Import ZArith Lia Ascii.
From stdpp Require Import base list strings pretty.

Local Open Scope Z_scope.
Local Arguments String.append : simpl nomatch.

(** ** Characters and strings *)

Definition dquote : ascii := Ascii.ascii_of_nat 34.
Definition space : ascii := Ascii.ascii_of_nat 32.

(** [str.toLowerCase()], on the ASCII letters.  A character outside ASCII
    never lower-cases to a string of the alias table, so a token holding one
    is rejected by [parseCmd] whatever its lower-casing is. *)
Definition lower_char (ch : ascii) : ascii :=
  let n := Ascii.nat_of_ascii ch in
  if ((65 <=? n) && (n <=? 90))%nat then Ascii.ascii_of_nat (n + 32) else ch.

Fixpoint toLowerCase (str : string) : string :=
  match str with
  | EmptyString => EmptyString
  | String ch rest => String (lower_char ch) (toLowerCase rest)
  end.

(** [str.split(' ', 1)[0]]: the text before the first space, or all of
    [str] when it holds none. *)
Fixpoint first_token (str : string) : string :=
  match str with
  | EmptyString => EmptyString
  | String ch rest =>
      if Ascii.eqb ch space then EmptyString else String ch (first_token rest)
  end.

(** ** JavaScript values met by the console *)

Inductive jsval : Type :=
  | VUndef
  | VBool (b : bool)
  | VStr (str : string).

Global Instance jsval_eq_dec : EqDecision jsval.
Proof. solve_decision. Defined.

(** [a === b] *)
Definition strict_eq (a b : jsval) : bool := bool_decide (a = b).

(** String conversion of a template literal [`${v}`] and of a property key. *)
Definition to_str (v : jsval) : string :=
  match v with
  | VUndef => "undefined"
  | VBool true => "true"
  | VBool false => "false"
  | VStr str => str
  end.

(** [xs[i]] on an array of strings: [undefined] past the end. *)
Definition arg_at (xs : list string) (i : nat) : jsval :=
  match xs !! i with
  | Some str => VStr str
  | None => VUndef
  end.

(** Numbers, as far as row numbers need them: [NaN] and the integers. *)
Inductive num : Type :=
  | NaN
  | Fin (z : Z).

Definition num_sub (a : num) (k : Z) : num :=
  match a with
  | NaN => NaN
  | Fin z => Fin (z - k)
  end.

Definition is_digit (ch : ascii) : bool :=
  let n := Ascii.nat_of_ascii ch in ((48 <=? n) && (n <=? 57))%nat.

Fixpoint digits_value (acc : Z) (str : string) : option Z :=
  match str with
  | EmptyString => Some acc
  | String ch rest =>
      if is_digit ch
      then digits_value (10 * acc + (Z.of_nat (Ascii.nat_of_ascii ch) - 48)) rest
      else None
  end.

(** [Number(v)].  Of the string numeric literals only the empty string and
    the unsigned decimal integers are read; every other string is sent to
    [NaN], which is what [Number] gives for text that is not numeric.
    Fractions, exponents, signs and radix prefixes denote values that [num]
    does not carry and are not covered by this embedding. *)
Definition Number (v : jsval) : num :=
  match v with
  | VUndef => NaN
  | VBool b => Fin (if b then 1 else 0)
  | VStr str =>
      match digits_value 0 str with
      | Some z => Fin z
      | None => NaN
      end
  end.

(** ** The operation table (lines 6-10) *)

Definition startOp : list string := ["start"; "begin"].
Definition stopOp : list string := ["stop"; "end"; "pause"].
Definition resumeOp : list string := ["resume"; "continue"].
Definition addOp : list string := ["add"; "continue"].

(** The initialiser spreads [Log.console.startOp], [Log.console.stopOp],
    [Log.console.resumeOp] and [Log.console.addOp], read here as the arrays
    of lines 6-9, and appends the single-name operations. *)
Definition possibleOperations : list string :=
  startOp ++ stopOp ++ resumeOp ++ addOp
  ++ ["edit"; "delete"; "set"; "import"; "export"; "rename"; "invert"].

(** ** The parser (lines 40-68) *)

Record Command : Type := mkCommand {
  operation : string;
  args : list string
}.

Global Instance Command_eq_dec : EqDecision Command.
Proof. solve_decision. Defined.

(** The three locals of [quotedArgs]. *)
Record scan : Type := mkScan {
  sc_args : list string;
  sc_quoteStart : bool;
  sc_arg : string
}.

Definition scan_init : scan := mkScan [] false EmptyString.

(** One turn of the [for (let ch of str)] loop. *)
Definition scan_step (st : scan) (ch : ascii) : scan :=
  if Ascii.eqb ch dquote then
    if negb (sc_quoteStart st)
    then mkScan (sc_args st) true (sc_arg st)
    else mkScan (sc_args st ++ [sc_arg st]) false EmptyString
  else
    if sc_quoteStart st
    then mkScan (sc_args st) (sc_quoteStart st) (sc_arg st +:+ String ch EmptyString)
    else st.

Fixpoint scan_chars (st : scan) (str : string) : scan :=
  match str with
  | EmptyString => st
  | String ch rest => scan_chars (scan_step st ch) rest
  end.

Definition quotedArgs (str : string) : list string :=
  sc_args (scan_chars scan_init str).

(** [parseCmd] returns [undefined] ([None]) for a rejected line. *)
Definition parseCmd (str : string) : option Command :=
  let operation := toLowerCase (first_token str) in
  if negb (bool_decide (operation ∈ possibleOperations)) then None
  else
    let args := quotedArgs str in
    Some (mkCommand operation args).

(** Text helpers used to write inputs that contain double quotes. *)
Definition quoted (str : string) : string :=
  String dquote (str +:+ String dquote EmptyString).


(** ** The state the handlers work on *)

Module Entry.
(** A stored log entry [{s, e, c, t, d}]. *)
Record entry : Type := mk {
  s : jsval;
  e : jsval;
  c : jsval;
  t : jsval;
  d : jsval
}.
End Entry.
Abbreviation entry := Entry.entry.

Global Instance entry_eq_dec : EqDecision entry.
Proof. solve_decision. Defined.

Definition set_s (v : jsval) (en : entry) : entry :=
  Entry.mk v (Entry.e en) (Entry.c en) (Entry.t en) (Entry.d en).
Definition set_e (v : jsval) (en : entry) : entry :=
  Entry.mk (Entry.s en) v (Entry.c en) (Entry.t en) (Entry.d en).
Definition set_c (v : jsval) (en : entry) : entry :=
  Entry.mk (Entry.s en) (Entry.e en) v (Entry.t en) (Entry.d en).
Definition set_t (v : jsval) (en : entry) : entry :=
  Entry.mk (Entry.s en) (Entry.e en) (Entry.c en) v (Entry.d en).
Definition set_d (v : jsval) (en : entry) : entry :=
  Entry.mk (Entry.s en) (Entry.e en) (Entry.c en) (Entry.t en) v.

(** [user.config.ui], as far as [invert] reads it. *)
Record ui : Type := mkUi {
  bg : jsval;
  colour : jsval
}.

(** What a handler can read or change: [user.log], [user.config.ui], and
    the calls it makes on its collaborators, recorded in call order:
    the messages given to [window.Notification], the number of calls of
    [Log.options.update], the number of calls of [clearInterval(timer)] and
    the setters of [Log.options] invoked by [set]. *)
Record state : Type := mkState {
  log : list entry;
  config_ui : ui;
  notifications : list string;
  updates : nat;
  timer_cleared : nat;
  option_calls : list (string * jsval)
}.

Inductive error : Type := TypeError.

(** A handler either returns or throws; both leave a state behind. *)
Inductive completion (A : Type) : Type :=
  | Normal (a : A) (st : state)
  | Abrupt (err : error) (st : state).
Arguments Normal {A} a st.
Arguments Abrupt {A} err st.

Definition final {A} (r : completion A) : state :=
  match r with
  | Normal _ st => st
  | Abrupt _ st => st
  end.

Definition M (A : Type) : Type := state -> completion A.

Global Instance M_ret : MRet M := fun A a st => Normal a st.
Global Instance M_bind : MBind M := fun A B f m st =>
  match m st with
  | Normal a st' => f a st'
  | Abrupt err st' => Abrupt err st'
  end.

Definition throw {A} (err : error) : M A := fun st => Abrupt err st.

Definition get_log : M (list entry) := fun st => Normal (log st) st.
Definition put_log (l : list entry) : M unit := fun st =>
  Normal tt (mkState l (config_ui st) (notifications st) (updates st)
                     (timer_cleared st) (option_calls st)).
Definition get_ui : M ui := fun st => Normal (config_ui st) st.
Definition put_ui (u : ui) : M unit := fun st =>
  Normal tt (mkState (log st) u (notifications st) (updates st)
                     (timer_cleared st) (option_calls st)).

(** [window.Notification(message)] *)
Definition Notification (message : string) : M unit := fun st =>
  Normal tt (mkState (log st) (config_ui st) (notifications st ++ [message])
                     (updates st) (timer_cleared st) (option_calls st)).

(** [Log.options.update()], the refresh signal. *)
Definition options_update : M unit := fun st =>
  Normal tt (mkState (log st) (config_ui st) (notifications st)
                     (S (updates st)) (timer_cleared st) (option_calls st)).

(** [clearInterval(timer)] *)
Definition clearInterval_timer : M unit := fun st =>
  Normal tt (mkState (log st) (config_ui st) (notifications st) (updates st)
                     (S (timer_cleared st)) (option_calls st)).

(** [Log.options.<setter>(value)] *)
Definition options_call (setter : string) (value : jsval) : M unit := fun st =>
  Normal tt (mkState (log st) (config_ui st) (notifications st) (updates st)
                     (timer_cleared st) (option_calls st ++ [(setter, value)])).

(** ** Array primitives *)

(** The start index that [slice(start)] and [splice(start, _)] derive from
    their first argument for an array of [len] elements. *)
Definition relative_index (start : num) (len : nat) : nat :=
  match start with
  | NaN => 0%nat
  | Fin z =>
      if z <? 0 then Z.to_nat (Z.max (Z.of_nat len + z) 0)
      else Z.to_nat (Z.min z (Z.of_nat len))
  end.

(** [l.slice(start)] *)
Definition slice {A} (l : list A) (start : num) : list A :=
  drop (relative_index start (length l)) l.

(** [l.splice(start, deleteCount)], the array left behind. *)
Definition splice {A} (l : list A) (start : num) (deleteCount : Z) : list A :=
  let k := relative_index start (length l) in
  let dc := Z.to_nat (Z.min (Z.max deleteCount 0) (Z.of_nat (length l - k))) in
  take k l ++ drop (k + dc) l.

(** [l[id]] for a number [id]: only an index below the length names an
    element. *)
Definition index {A} (l : list A) (id : num) : option A :=
  match id with
  | NaN => None
  | Fin z => if z <? 0 then None else l !! Z.to_nat z
  end.

(** Reading a property of something that may be [undefined]. *)
Definition prop {A} (o : option entry) (field : entry -> A) : M A :=
  match o with
  | Some en => mret (field en)
  | None => throw TypeError
  end.

(** Property names every array inherits from [Array.prototype] and
    [Object.prototype]. *)
Definition inherited_keys : list string :=
  ["constructor"; "concat"; "copyWithin"; "entries"; "every"; "fill";
   "filter"; "find"; "findIndex"; "forEach"; "includes"; "indexOf"; "join";
   "keys"; "lastIndexOf"; "map"; "pop"; "push"; "reduce"; "reduceRight";
   "reverse"; "shift"; "slice"; "some"; "sort"; "splice"; "toLocaleString";
   "toString"; "unshift"; "values"; "hasOwnProperty"; "isPrototypeOf";
   "propertyIsEnumerable"; "valueOf"; "__proto__"; "__defineGetter__";
   "__defineSetter__"; "__lookupGetter__"; "__lookupSetter__"].

(** [key in arr] for an array: [key] is compared with the property names of
    the array (its indices and [length]) and of its prototypes, never with
    its elements. *)
Definition array_has_property (key : string) (arr : list string) : bool :=
  bool_decide (key ∈ (pretty <$> seq 0 (length arr)))
  || bool_decide (key = "length")
  || bool_decide (key ∈ inherited_keys).

(** [key in obj] where [obj] is [undefined] ([None]) or an array: the
    operator throws a TypeError when its right operand is not an object. *)
Definition js_in (key : string) (obj : option (list string)) : M bool :=
  match obj with
  | None => throw TypeError
  | Some arr => mret (array_has_property key arr)
  end.

(** [v.toLowerCase()]: only a string has the method. *)
Definition js_toLowerCase (v : jsval) : M jsval :=
  match v with
  | VStr str => mret (VStr (toLowerCase str))
  | _ => throw TypeError
  end.

(** ** The handlers (lines 192-386) *)

(** The sentinel stored in [e] while an entry is running. *)
Definition Open : jsval := VStr "undefined".

Definition Log_started (sect proj desc : jsval) : string :=
  "Log started: " +:+ to_str sect +:+ " - " +:+ to_str proj +:+ " - " +:+ to_str desc.
Definition Log_added (sect proj desc : jsval) : string :=
  "Log added: " +:+ to_str sect +:+ " - " +:+ to_str proj +:+ " - " +:+ to_str desc.
Definition Log_ended (last : entry) : string :=
  "Log ended: " +:+ to_str (Entry.c last) +:+ " - " +:+ to_str (Entry.t last)
  +:+ " - " +:+ to_str (Entry.d last).
Definition Log_resumed (en : entry) : string :=
  "Log resumed: " +:+ to_str (Entry.c en) +:+ " - " +:+ to_str (Entry.t en)
  +:+ " - " +:+ to_str (Entry.d en).

(** [startLog (sect, proj, desc)].  [now] is the value that
    [Log.time.toHex(new Date())] has at the call. *)
Definition startLog (now : jsval) (sect proj desc : jsval) : M unit :=
  l ← get_log;
  running ←
    ((if negb (length l =? 0)%nat
      then e ← prop (head (slice l (Fin (-1)))) Entry.e;
           mret (strict_eq e Open)
      else mret false) : M bool);
  if (running : bool) then mret tt
  else
    let start := now in
    put_log (l ++ [Entry.mk start Open sect proj desc]);;
    Notification (Log_started sect proj desc);;
    options_update.

Section Handlers.

(** [Log.time.convertDateTime], a collaborator of the console. *)
Variable convertDateTime : jsval -> jsval.

(** [addLog (sect, proj, desc, start, end)] *)
Definition addLog (sect proj desc start end_ : jsval) : M unit :=
  l ← get_log;
  put_log (l ++ [Entry.mk (convertDateTime start) (convertDateTime end_)
                          sect proj desc]);;
  Notification (Log_added sect proj desc);;
  options_update.

(** [endLog ()].  [last] is the final element of [user.log] itself, so the
    assignment to [last.e] changes the array in place; reading [last.e]
    throws when [last] is [undefined]. *)
Definition endLog (now : jsval) : M unit :=
  l ← get_log;
  match head (slice l (Fin (-1))) with
  | None => throw TypeError
  | Some last =>
      if negb (strict_eq (Entry.e last) Open) then mret tt
      else
        put_log (alter (set_e now) (relative_index (Fin (-1)) (length l)) l);;
        clearInterval_timer;;
        Notification (Log_ended last);;
        options_update
  end.

(** [resume (id = -1)]; [None] is a call without the argument.  Reading
    [entry.e] throws when [entry] is [undefined]. *)
Definition resume (now : jsval) (id : option num) : M unit :=
  let id := default (Fin (-1)) id in
  l ← get_log;
  match head (slice l id) with
  | None => throw TypeError
  | Some entry =>
      if strict_eq (Entry.e entry) Open then mret tt
      else
        put_log (l ++ [Entry.mk now Open (Entry.c entry) (Entry.t entry)
                                (Entry.d entry)]);;
        Notification (Log_resumed entry);;
        options_update
  end.

(** [set (attr, value)] *)
Definition set (attr value : jsval) : M unit :=
  let named (name : string) := strict_eq attr (VStr name) in
  if named "background" || named "bg" then options_call "setBG" value
  else if named "color" || named "colour" || named "text" then options_call "setColour" value
  else if named "highlight" || named "accent" then options_call "setAccent" value
  else if named "font" || named "typeface" || named "type" then options_call "setFont" value
  else if named "view" then options_call "setView" value
  else if named "cal" || named "calendar" then options_call "setCalendar" value
  else if named "timeformat" || named "time" then options_call "setTimeFormat" value
  else if named "dateformat" || named "date" then options_call "setDateFormat" value
  else if named "weekstart" then options_call "setWeekStart" value
  else if named "category" || named "sector" || named "cat" || named "sec"
    then options_call "setColourCode" value
  else if named "project" || named "pro" then options_call "setProjectColourCode" value
  else if named "colourmode" || named "colormode" then options_call "setColourMode" value
  else mret tt.

(** [delete (id)] *)
Definition delete (id : num) : M unit :=
  l ← get_log;
  put_log (splice l (num_sub id 1) 1);;
  options_update.

(** [user.log[id].<field> = value]: a TypeError when [user.log[id]] is
    [undefined], otherwise the element is changed in place. *)
Definition assign (id : num) (setter : jsval -> entry -> entry) (value : jsval)
  : M unit :=
  l ← get_log;
  match id, index l id with
  | Fin z, Some _ => put_log (alter (setter value) (Z.to_nat z) l)
  | _, _ => throw TypeError
  end.

(** [edit (id, attr, value)] *)
Definition edit (id : num) (attr value : jsval) : M unit :=
  let named (name : string) := strict_eq attr (VStr name) in
  if named "sec" || named "sector" then
    assign id set_c value;; options_update
  else if named "title" || named "pro" || named "project" then
    assign id set_t value;; options_update
  else if named "desc" || named "dsc" || named "description" then
    assign id set_d value;; options_update
  else if named "start" then
    assign id set_s (convertDateTime value);; options_update
  else if named "end" then
    assign id set_e (convertDateTime value);; options_update
  else mret tt.

(** Modelled from the spec: [Log.data.getEntriesBySector] and
    [Log.data.getEntriesByProject] are defined outside console.js; the
    entries of the log whose sector (project) is the given name. *)
Definition getEntriesBySector (l : list entry) (name : jsval) : list entry :=
  filter (fun en => strict_eq (Entry.c en) name = true) l.
Definition getEntriesByProject (l : list entry) (name : jsval) : list entry :=
  filter (fun en => strict_eq (Entry.t en) name = true) l.

Definition not_exist (kind : string) (oldName : jsval) : string :=
  "The " +:+ kind +:+ " " +:+ quoted (to_str oldName)
  +:+ " does not exist in your logs.".
Definition has_been_renamed (oldName newName : jsval) : string :=
  "The sector " +:+ quoted (to_str oldName) +:+ " has been renamed to "
  +:+ String dquote (to_str newName +:+ "." +:+ String dquote EmptyString).

(** [notFound (category)], the local of [rename]. *)
Definition notFound (oldName : jsval) (category : jsval) : M unit :=
  let message :=
    if strict_eq category (VStr "sector") then not_exist "sector" oldName
    else not_exist "project" oldName in
  Notification message.

(** The two [for] loops of [rename]. *)
Definition rename_c (oldName newName : jsval) (en : entry) : entry :=
  if strict_eq (Entry.c en) oldName then set_c newName en else en.
Definition rename_t (oldName newName : jsval) (en : entry) : entry :=
  if strict_eq (Entry.t en) oldName then set_t newName en else en.

(** [rename (category, oldName, newName)] *)
Definition rename (category oldName newName : jsval) : M unit :=
  known ← js_in (to_str category) (Some ["sector"; "sec"; "project"; "pro"]);
  if negb known then mret tt
  else
    l ← get_log;
    if strict_eq category (VStr "sector") || strict_eq category (VStr "sec")
    then
      if (length (getEntriesBySector l oldName) =? 0)%nat
      then notFound oldName (VStr "sector")
      else
        put_log (rename_c oldName newName <$> l);;
        Notification (has_been_renamed oldName newName);;
        options_update
    else if strict_eq category (VStr "project") || strict_eq category (VStr "pro")
    then
      if (length (getEntriesByProject l oldName) =? 0)%nat
      then notFound oldName (VStr "project")
      else
        put_log (rename_t oldName newName <$> l);;
        Notification (has_been_renamed oldName newName);;
        options_update
    else mret tt.

(** [invert ()] *)
Definition invert : M unit :=
  u ← get_ui;
  let bg := bg u in
  let c := colour u in
  put_ui (mkUi c bg);;
  options_update.

(** ** The dispatcher (lines 76-142) *)

(** [importUser] and [exportUser] only drive the file dialog, the file
    system and the local storage; they are taken as given. *)
Variable importUser : M unit.
Variable exportUser : M unit.

(** The object [Log] of line 2, as far as [executeCmd] reads it: what
    [Log.startOp], [Log.stopOp], [Log.resumeOp] and [Log.addOp] evaluate to,
    [None] standing for [undefined]. *)
Record LogObject : Type := mkLog {
  Log_startOp : option (list string);
  Log_stopOp : option (list string);
  Log_resumeOp : option (list string);
  Log_addOp : option (list string)
}.

(** The clauses of the [switch], in source order. *)
Inductive clause : Type :=
  | on_start | on_stop | on_resume | on_add
  | on_edit | on_delete | on_set | on_import | on_export | on_rename
  | on_invert.

Definition clauses : list clause :=
  [on_start; on_stop; on_resume; on_add; on_edit; on_delete; on_set;
   on_import; on_export; on_rename; on_invert].

(** The expression after [case]. *)
Definition case_expr (L : LogObject) (cmd : Command) (cl : clause) : M jsval :=
  match cl with
  | on_start => b ← js_in (operation cmd) (Log_startOp L); mret (VBool b)
  | on_stop => b ← js_in (operation cmd) (Log_stopOp L); mret (VBool b)
  | on_resume => b ← js_in (operation cmd) (Log_resumeOp L); mret (VBool b)
  | on_add => b ← js_in (operation cmd) (Log_addOp L); mret (VBool b)
  | on_edit => mret (VStr "edit")
  | on_delete => mret (VStr "delete")
  | on_set => mret (VStr "set")
  | on_import => mret (VStr "import")
  | on_export => mret (VStr "export")
  | on_rename => mret (VStr "rename")
  | on_invert => mret (VStr "invert")
  end.

(** [switch (v)]: the case expressions are evaluated in order and compared
    with [v] by [===]; the first equal one selects its clause. *)
Fixpoint switch (L : LogObject) (cmd : Command) (v : jsval) (cls : list clause)
  : M (option clause) :=
  match cls with
  | [] => mret None
  | cl :: rest =>
      w ← case_expr L cmd cl;
      if strict_eq v w then mret (Some cl) else switch L cmd v rest
  end.

(** The statements of a clause, up to its [break]. *)
Definition clause_body (now : jsval) (cmd : Command) (cl : clause) : M unit :=
  match cl with
  | on_start =>
      let sect := arg_at (args cmd) 0 in
      let proj := arg_at (args cmd) 1 in
      let desc := arg_at (args cmd) 2 in
      startLog now sect proj desc
  | on_stop => endLog now
  | on_resume => resume now None
  | on_add =>
      let sect := arg_at (args cmd) 0 in
      let proj := arg_at (args cmd) 1 in
      let desc := arg_at (args cmd) 2 in
      let start := arg_at (args cmd) 3 in
      let end_ := arg_at (args cmd) 4 in
      addLog sect proj desc start end_
  | on_edit =>
      let id := num_sub (Number (arg_at (args cmd) 0)) 1 in
      attr ← js_toLowerCase (arg_at (args cmd) 1);
      let value := arg_at (args cmd) 2 in
      edit id attr value
  | on_delete =>
      let id := num_sub (Number (arg_at (args cmd) 0)) 1 in
      delete id
  | on_set =>
      attr ← js_toLowerCase (arg_at (args cmd) 0);
      let value := arg_at (args cmd) 1 in
      set attr value
  | on_import => importUser
  | on_export => exportUser
  | on_rename =>
      let category := arg_at (args cmd) 0 in
      let oldName := arg_at (args cmd) 1 in
      let newName := arg_at (args cmd) 2 in
      rename category oldName newName
  | on_invert => invert
  end.

(** [executeCmd (cmd)], run against a given [Log] object. *)
Definition executeCmd (L : LogObject) (now : jsval) (cmd : Command) : M unit :=
  selected ← switch L cmd (VBool true) clauses;
  match selected with
  | Some cl => clause_body now cmd cl
  | None => mret tt
  end.

End Handlers.

(** console.js gives [Log] the property [console] and no other; the alias
    arrays are properties of [Log.console], so on [Log] they are
    [undefined]. *)
Definition Log : LogObject := mkLog None None None None.

(** A [Log] object on which the alias arrays of lines 6-9 were found. *)
Definition Log_with_aliases : LogObject :=
  mkLog (Some startOp) (Some stopOp) (Some resumeOp) (Some addOp).

(** The clauses whose case expression is a string literal. *)
Definition string_clause (cl : clause) : bool :=
  match cl with
  | on_start | on_stop | on_resume | on_add => false
  | _ => true
  end.

(** ** The invariant of the log *)

Definition is_open (en : entry) : bool := strict_eq (Entry.e en) Open.

(** At most one entry is open, and an open entry is the last one. *)
Definition log_invariant (l : list entry) : Prop :=
  (length (filter (fun en => is_open en = true) l) <= 1)%nat
  /\ forall i en, l !! i = Some en -> is_open en = true -> S i = length l.

(** The same, as a test: every entry but the last is closed. *)
Definition log_invariantb (l : list entry) : bool :=
  forallb (fun en => negb (is_open en)) (removelast l).

(** ** The quoted arguments, said with segments *)

(** The pieces of [str] between its double quotes: one more than it has
    quotes. *)
Fixpoint split_quote (str : string) : list string :=
  match str with
  | EmptyString => [EmptyString]
  | String ch rest =>
      if Ascii.eqb ch dquote then EmptyString :: split_quote rest
      else match split_quote rest with
           | seg :: segs => String ch seg :: segs
           | [] => [String ch EmptyString]
           end
  end.

(** The pieces that lie between an opening quote and its closing quote: the
    second, fourth, ... piece, each only if a quote follows it. *)
Fixpoint between_quotes (segs : list string) : list string :=
  match segs with
  | _ :: inner :: rest =>
      match rest with
      | [] => []
      | _ :: _ => inner :: between_quotes rest
      end
  | _ => []
  end.

Fixpoint count_quotes (str : string) : nat :=
  match str with
  | EmptyString => 0%nat
  | String ch rest =>
      if Ascii.eqb ch dquote then S (count_quotes rest) else count_quotes rest
  end.

Fixpoint quote_free (str : string) : bool :=
  match str with
  | EmptyString => true
  | String ch rest => negb (Ascii.eqb ch dquote) && quote_free rest
  end.

(** The line rebuilt from a command: the operation, then each argument in
    double quotes after a space. *)
Definition rebuild_args (xs : list string) : string :=
  foldr (fun a rest => String space (quoted a +:+ rest)) EmptyString xs.

Definition rebuild (cmd : Command) : string :=
  operation cmd +:+ rebuild_args (args cmd).

(** ** Composition and sample data *)

(** A line is parsed, and the command, if there is one, is executed. *)
Definition parse_and_execute (convertDateTime : jsval -> jsval)
    (importUser exportUser : M unit) (L : LogObject) (now : jsval)
    (line : string) : M unit :=
  match parseCmd line with
  | Some cmd => executeCmd convertDateTime importUser exportUser L now cmd
  | None => mret tt
  end.

(** The state left by a [startLog] that appends. *)
Definition started (now sect proj desc : jsval) (st : state) : state :=
  mkState (log st ++ [Entry.mk now Open sect proj desc]) (config_ui st)
          (notifications st ++ [Log_started sect proj desc])
          (S (updates st)) (timer_cleared st) (option_calls st).

(** The state left by a [resume] that appends a copy of [en]. *)
Definition resumed (now : jsval) (en : entry) (st : state) : state :=
  mkState (log st ++ [Entry.mk now Open (Entry.c en) (Entry.t en) (Entry.d en)])
          (config_ui st) (notifications st ++ [Log_resumed en])
          (S (updates st)) (timer_cleared st) (option_calls st).

(** The state left by an [addLog]. *)
Definition added (convertDateTime : jsval -> jsval)
    (sect proj desc start end_ : jsval) (st : state) : state :=
  mkState (log st ++ [Entry.mk (convertDateTime start) (convertDateTime end_)
                               sect proj desc])
          (config_ui st) (notifications st ++ [Log_added sect proj desc])
          (S (updates st)) (timer_cleared st) (option_calls st).

(** A line with two quoted arguments, stray text and a dangling quote. *)
Definition dangling_line : string :=
  "start x " +:+ quoted "a b" +:+ "zz" +:+ quoted EmptyString +:+ String dquote "tail".

(** The line of the edit scenario, as typed and with every argument
    quoted. *)
Definition edit_line : string := "edit 1 desc " +:+ quoted "refactored".
Definition edit_line_quoted : string :=
  "edit " +:+ quoted "1" +:+ " " +:+ quoted "desc" +:+ " " +:+ quoted "refactored".

Definition closed_entry : entry :=
  Entry.mk (VStr "5c1f0a") (VStr "5c1f0b") (VStr "A") (VStr "site") (VStr "draft").
Definition second_entry : entry :=
  Entry.mk (VStr "5c1f0c") (VStr "5c1f0d") (VStr "C") (VStr "site") (VStr "review").
Definition open_entry : entry :=
  Entry.mk (VStr "5c1f0e") Open (VStr "A") (VStr "site") (VStr "build").

Definition state_of (l : list entry) : state :=
  mkState l (mkUi (VStr "#fff") (VStr "#000")) [] 0 0 [].

(** A time stamp, and a [convertDateTime] that hands its text back. *)
Definition sample_now : jsval := VStr "5c1f10".
Definition sample_convert (v : jsval) : jsval := v.

(** ** States and names used to state further properties *)

(** The state left by an [endLog] that closes the last entry [en]. *)
Definition ended (now : jsval) (en : entry) (st : state) : state :=
  mkState (removelast (log st) ++ [set_e now en]) (config_ui st)
          (notifications st ++ [Log_ended en])
          (S (updates st)) (S (timer_cleared st)) (option_calls st).

(** The state left by an [edit] that applies [f] to the entry at [i]. *)
Definition edited (f : entry -> entry) (i : nat) (st : state) : state :=
  mkState (alter f i (log st)) (config_ui st) (notifications st)
          (S (updates st)) (timer_cleared st) (option_calls st).

(** The state after one more call of [Log.options.update]. *)
Definition refreshed (st : state) : state :=
  mkState (log st) (config_ui st) (notifications st) (S (updates st))
          (timer_cleared st) (option_calls st).

(** The attribute names that [edit] tests for (lines 318-326). *)
Definition edit_attrs : list string :=
  ["sec"; "sector"; "title"; "pro"; "project"; "desc"; "dsc"; "description";
   "start"; "end"].

Fixpoint digits_only (str : string) : bool :=
  match str with
  | EmptyString => true
  | String ch rest => is_digit ch && digits_only rest
  end.

(** A line whose quoted blocks are separated by stray text. *)
Definition stray_line : string :=
  "add " +:+ quoted "work" +:+ ", then " +:+ quoted "site".

(** * Properties *)

(** ** Strings *)

Lemma append_empty_r (a : string) : a +:+ EmptyString = a.
Proof. induction a as [|ch a IH]; simpl; [reflexivity | now rewrite IH]. Qed.

Lemma append_assoc (a b c : string) : (a +:+ b) +:+ c = a +:+ (b +:+ c).
Proof. induction a as [|ch a IH]; simpl; [reflexivity | now rewrite IH]. Qed.

Lemma quote_free_app (a b : string) :
  quote_free (a +:+ b) = quote_free a && quote_free b.
Proof.
  induction a as [|ch a IH]; simpl; [reflexivity |].
  rewrite IH. now rewrite andb_assoc.
Qed.

(** ** The scanning loop *)

Lemma scan_chars_app (a b : string) (st : scan) :
  scan_chars st (a +:+ b) = scan_chars (scan_chars st a) b.
Proof. revert st. induction a as [|ch a IH]; intros st; simpl; [reflexivity | apply IH]. Qed.

(** Outside a quoted block, text without a quote leaves the locals alone. *)
Lemma scan_outside_quote_free (str : string) (st : scan) :
  quote_free str = true -> sc_quoteStart st = false -> scan_chars st str = st.
Proof.
  revert st. induction str as [|ch str IH]; intros st Hq Hout; simpl in *; [reflexivity |].
  apply andb_prop in Hq as [Hch Hq].
  unfold scan_step. destruct (Ascii.eqb ch dquote); [discriminate |].
  rewrite Hout. now apply IH.
Qed.

(** Inside a quoted block, text without a quote is appended to [arg]. *)
Lemma scan_inside_quote_free (str : string) (acc : list string) (buf : string) :
  quote_free str = true ->
  scan_chars (mkScan acc true buf) str = mkScan acc true (buf +:+ str).
Proof.
  revert buf. induction str as [|ch str IH]; intros buf Hq; simpl in *.
  - now rewrite append_empty_r.
  - apply andb_prop in Hq as [Hch Hq].
    unfold scan_step. destruct (Ascii.eqb ch dquote); [discriminate |]. simpl.
    rewrite IH by assumption. rewrite append_assoc. reflexivity.
Qed.

(** The quote flag after a scan is the flag before it, flipped once for
    every quote met. *)
Lemma scan_quoteStart (str : string) (st : scan) :
  sc_quoteStart (scan_chars st str)
  = xorb (sc_quoteStart st) (Nat.odd (count_quotes str)).
Proof.
  revert st. induction str as [|ch str IH]; intros st; simpl.
  - now rewrite xorb_false_r.
  - rewrite IH. unfold scan_step.
    destruct (Ascii.eqb ch dquote) eqn:Hch.
    + rewrite Nat.odd_succ, <- Nat.negb_odd.
      destruct st as [acc [] buf], (Nat.odd (count_quotes str)); reflexivity.
    + destruct st as [acc [] buf]; reflexivity.
Qed.

Lemma split_quote_nonempty (str : string) : split_quote str <> [].
Proof.
  destruct str as [|ch str]; simpl; [discriminate |].
  destruct (Ascii.eqb ch dquote); [discriminate |].
  destruct (split_quote str); discriminate.
Qed.

(** The pieces, joined by quotes, give the text back, so [split_quote]
    cuts at the quotes and nowhere else. *)
Lemma split_quote_join (str : string) :
  String.concat (String dquote EmptyString) (split_quote str) = str.
Proof.
  induction str as [|ch str IH]; simpl; [reflexivity |].
  destruct (Ascii.eqb ch dquote) eqn:Hch.
  - apply Ascii.eqb_eq in Hch. subst ch.
    pose proof (split_quote_nonempty str) as Hne.
    simpl. destruct (split_quote str) as [|seg segs]; [contradiction |].
    rewrite IH. reflexivity.
  - pose proof (split_quote_nonempty str) as Hne.
    destruct (split_quote str) as [|seg segs]; [contradiction |].
    simpl in *. destruct segs; simpl in *; now rewrite IH.
Qed.

Lemma split_quote_length (str : string) :
  length (split_quote str) = S (count_quotes str).
Proof.
  induction str as [|ch str IH]; simpl; [reflexivity |].
  destruct (Ascii.eqb ch dquote); simpl; [now rewrite IH |].
  pose proof (split_quote_nonempty str) as Hne.
  destruct (split_quote str); [contradiction | exact IH].
Qed.

Lemma split_quote_free (str : string) :
  Forall (fun seg => quote_free seg = true) (split_quote str).
Proof.
  induction str as [|ch str IH]; simpl.
  - repeat constructor.
  - destruct (Ascii.eqb ch dquote) eqn:Hch.
    + constructor; [reflexivity | exact IH].
    + destruct (split_quote str) as [|seg segs].
      * repeat constructor. simpl. now rewrite Hch.
      * inversion IH; subst. constructor; [| assumption].
        simpl. now rewrite Hch.
Qed.

Lemma between_quotes_head (a b : string) (segs : list string) :
  between_quotes (a :: segs) = between_quotes (b :: segs).
Proof. reflexivity. Qed.

(** What the loop has committed, from a state outside and from a state
    inside a quoted block. *)
Lemma scan_args_segments (str : string) :
  (forall acc,
     sc_args (scan_chars (mkScan acc false EmptyString) str)
     = acc ++ between_quotes (split_quote str))
  /\ (forall acc buf,
        sc_args (scan_chars (mkScan acc true buf) str)
        = acc ++ match split_quote str with
                 | seg :: (_ :: _) as rest => (buf +:+ seg) :: between_quotes rest
                 | _ => []
                 end).
Proof.
  induction str as [|ch str [IHout IHin]]; simpl.
  - split; intros; simpl; now rewrite app_nil_r.
  - pose proof (split_quote_nonempty str) as Hne.
    unfold scan_step. destruct (Ascii.eqb ch dquote) eqn:Hch; simpl.
    + split.
      * intros acc. rewrite IHin.
        destruct (split_quote str) as [|seg [|seg' segs]]; reflexivity.
      * intros acc buf. rewrite IHout.
        destruct (split_quote str) as [|seg segs]; [contradiction |].
        now rewrite append_empty_r, <- app_assoc.
    + split.
      * intros acc. rewrite IHout.
        destruct (split_quote str) as [|seg segs]; [contradiction |].
        reflexivity.
      * intros acc buf. rewrite IHin.
        destruct (split_quote str) as [|seg [|seg' segs]]; try reflexivity.
        now rewrite append_assoc.
Qed.

Lemma quotedArgs_segments (str : string) :
  quotedArgs str = between_quotes (split_quote str).
Proof. unfold quotedArgs, scan_init. now rewrite (proj1 (scan_args_segments str)). Qed.

Lemma between_quotes_Forall (P : string -> Prop) (segs : list string) :
  Forall P segs -> Forall P (between_quotes segs).
Proof.
  remember (length segs) as n eqn:Hn. revert segs Hn.
  induction n as [n IH] using lt_wf_ind. intros segs Hn Hall.
  destruct segs as [|a [|b [|c rest]]]; [constructor | constructor | constructor |].
  change (Forall P (b :: between_quotes (c :: rest))).
  inversion Hall as [|? ? _ Hall']; subst.
  inversion Hall' as [|? ? Hb Hrest]; subst.
  constructor; [exact Hb |].
  apply (IH (length (c :: rest))); [simpl; lia | reflexivity | exact Hrest].
Qed.

Lemma quotedArgs_quote_free (str : string) :
  Forall (fun a => quote_free a = true) (quotedArgs str).
Proof.
  rewrite quotedArgs_segments. apply between_quotes_Forall, split_quote_free.
Qed.

(** A dangling quote and the text after it commit nothing. *)
Lemma quotedArgs_dangling (pre tail : string) :
  Nat.even (count_quotes pre) = true ->
  quote_free tail = true ->
  quotedArgs (pre +:+ String dquote tail) = quotedArgs pre.
Proof.
  intros Heven Hfree. unfold quotedArgs.
  rewrite scan_chars_app. simpl.
  pose proof (scan_quoteStart pre scan_init) as Hflag.
  rewrite <- Nat.negb_even, Heven in Hflag. simpl in Hflag.
  destruct (scan_chars scan_init pre) as [acc flag buf]. simpl in Hflag. subst flag.
  unfold scan_step. rewrite Ascii.eqb_refl. simpl.
  now rewrite scan_inside_quote_free.
Qed.

(** ** The parser *)

Lemma parseCmd_Some (str : string) (cmd : Command) :
  parseCmd str = Some cmd ->
  operation cmd = toLowerCase (first_token str)
  /\ operation cmd ∈ possibleOperations
  /\ args cmd = quotedArgs str.
Proof.
  unfold parseCmd. intros H.
  destruct (bool_decide (toLowerCase (first_token str) ∈ possibleOperations)) eqn:Hop;
    simpl in H; [| discriminate].
  apply bool_decide_eq_true in Hop.
  injection H as <-. simpl. auto.
Qed.

Lemma parseCmd_accepts (str : string) :
  toLowerCase (first_token str) ∈ possibleOperations ->
  parseCmd str = Some (mkCommand (toLowerCase (first_token str)) (quotedArgs str)).
Proof.
  intros Hop. unfold parseCmd. now rewrite (bool_decide_eq_true_2 _ Hop).
Qed.

(** Every name of the table is in lower case and holds neither a space nor
    a quote. *)
Lemma possibleOperations_shape :
  Forall (fun op => toLowerCase op = op
                    /\ quote_free op = true
                    /\ first_token op = op) possibleOperations.
Proof. repeat (constructor; [repeat split; reflexivity |]). constructor. Qed.

Lemma first_token_before_space (op rest : string) :
  first_token op = op -> first_token (op +:+ String space rest) = op.
Proof.
  induction op as [|ch op IH]; simpl; intros H; [reflexivity |].
  destruct (Ascii.eqb ch space); [discriminate |].
  injection H as H. now rewrite IH.
Qed.

Lemma first_token_rebuild (op : string) (xs : list string) :
  first_token op = op -> first_token (op +:+ rebuild_args xs) = op.
Proof.
  intros H. destruct xs as [|a xs]; simpl.
  - now rewrite append_empty_r.
  - now apply first_token_before_space.
Qed.

(** Scanning the rebuilt arguments commits exactly those arguments. *)
Lemma scan_rebuild_args (xs : list string) (acc : list string) :
  Forall (fun a => quote_free a = true) xs ->
  scan_chars (mkScan acc false EmptyString) (rebuild_args xs)
  = mkScan (acc ++ xs) false EmptyString.
Proof.
  intros Hall. revert acc.
  induction Hall as [|a xs Ha _ IH]; intros acc; simpl.
  - now rewrite app_nil_r.
  - change (rebuild_args (a :: xs))
      with (String space (String dquote
              ((a +:+ String dquote EmptyString) +:+ rebuild_args xs))).
    cbn [scan_chars].
    change (scan_step (scan_step (mkScan acc false EmptyString) space) dquote)
      with (mkScan acc true EmptyString).
    rewrite append_assoc, scan_chars_app.
    rewrite scan_inside_quote_free by exact Ha.
    change (scan_chars (mkScan acc true (EmptyString +:+ a))
              (String dquote EmptyString +:+ rebuild_args xs))
      with (scan_chars (mkScan (acc ++ [a]) false EmptyString) (rebuild_args xs)).
    rewrite IH, <- app_assoc. reflexivity.
Qed.

Lemma quotedArgs_rebuild (op : string) (xs : list string) :
  quote_free op = true ->
  Forall (fun a => quote_free a = true) xs ->
  quotedArgs (op +:+ rebuild_args xs) = xs.
Proof.
  intros Hop Hxs. unfold quotedArgs.
  rewrite scan_chars_app, (scan_outside_quote_free op) by (exact Hop || reflexivity).
  unfold scan_init. now rewrite scan_rebuild_args.
Qed.

(** Claim C10.  The arguments of an accepted line are the pieces of text
    between each opening quote and its closing quote, in order; text
    outside the quotes is dropped; and when the line ends in an unmatched
    quote followed by text, that text is not committed: the arguments are
    those of the line before the unmatched quote. *)
Theorem parseCmd_args_between_quotes (str : string) (cmd : Command) :
  parseCmd str = Some cmd ->
  args cmd = between_quotes (split_quote str)
  /\ forall pre tail,
       str = pre +:+ String dquote tail ->
       Nat.even (count_quotes pre) = true ->
       quote_free tail = true ->
       args cmd = quotedArgs pre.
Proof.
  intros H. apply parseCmd_Some in H as (_ & _ & Hargs). split.
  - rewrite Hargs. apply quotedArgs_segments.
  - intros pre tail -> Heven Hfree. rewrite Hargs.
    now apply quotedArgs_dangling.
Qed.

Lemma parseCmd_args_between_quotes_witness :
  args (mkCommand "start" ["a b"; EmptyString])
  = between_quotes (split_quote dangling_line)
  /\ forall pre tail,
       dangling_line = pre +:+ String dquote tail ->
       Nat.even (count_quotes pre) = true ->
       quote_free tail = true ->
       args (mkCommand "start" ["a b"; EmptyString]) = quotedArgs pre.
Proof.
  apply (parseCmd_args_between_quotes dangling_line (mkCommand "start" ["a b"; EmptyString])).
  vm_compute. reflexivity.
Defined.

(** Claim C9.  An accepted line yields a command; the line rebuilt from
    that command (its operation, then each argument in double quotes after
    a space) parses to the same command. *)
Theorem parseCmd_rebuild (str : string) (cmd : Command) :
  parseCmd str = Some cmd -> parseCmd (rebuild cmd) = Some cmd.
Proof.
  intros H. apply parseCmd_Some in H as (_ & Hop & Hargs).
  destruct cmd as [op xs]. simpl in *.
  pose proof possibleOperations_shape as Hshape.
  rewrite Forall_forall in Hshape.
  destruct (Hshape op Hop) as (Hlow & Hfree & Htok).
  unfold rebuild. simpl.
  assert (Hxs : Forall (fun a => quote_free a = true) xs)
    by (rewrite Hargs; apply quotedArgs_quote_free).
  assert (Hfirst : toLowerCase (first_token (op +:+ rebuild_args xs)) = op)
    by (now rewrite first_token_rebuild).
  rewrite parseCmd_accepts by (now rewrite Hfirst).
  rewrite Hfirst, quotedArgs_rebuild by assumption.
  reflexivity.
Qed.

Lemma parseCmd_rebuild_witness :
  parseCmd (rebuild (mkCommand "start" ["a b"; EmptyString]))
  = Some (mkCommand "start" ["a b"; EmptyString]).
Proof.
  apply (parseCmd_rebuild dangling_line (mkCommand "start" ["a b"; EmptyString])).
  vm_compute. reflexivity.
Defined.

(** Claim C7.  A line whose first token lower-cases to "new" is rejected:
    the alias table holds "continue" where the grammar of the parser's
    documentation has "new". *)
Theorem parseCmd_rejects_new (str : string) :
  toLowerCase (first_token str) = "new" -> parseCmd str = None.
Proof. intros H. unfold parseCmd. rewrite H. reflexivity. Qed.

Lemma parseCmd_rejects_new_witness :
  parseCmd ("New " +:+ quoted "work" +:+ " " +:+ quoted "site") = None.
Proof. apply parseCmd_rejects_new. vm_compute. reflexivity. Defined.

(** ** Array primitives *)

Lemma relative_index_last (len : nat) :
  relative_index (Fin (-1)) len = (len - 1)%nat.
Proof. unfold relative_index. simpl. lia. Qed.

(** [l.slice(-1)[0]] is the last element, [undefined] on an empty array. *)
Lemma slice_last {A} (l : list A) : head (slice l (Fin (-1))) = last l.
Proof.
  unfold slice. rewrite relative_index_last.
  destruct l as [|x l] using rev_ind; [reflexivity |].
  rewrite last_snoc, length_app. simpl.
  replace (length l + 1 - 1)%nat with (length l) by lia.
  now rewrite drop_app_length.
Qed.

(** ** startLog *)

Lemma startLog_running (now sect proj desc : jsval) (st : state) (en : entry) :
  last (log st) = Some en -> is_open en = true ->
  startLog now sect proj desc st = Normal tt st.
Proof.
  intros Hlast Hopen. unfold startLog, mbind, M_bind, get_log.
  destruct (log st) as [|x l] eqn:Hl; [discriminate |].
  rewrite slice_last, Hlast. simpl.
  unfold is_open in Hopen. now rewrite Hopen.
Qed.

Lemma startLog_idle (now sect proj desc : jsval) (st : state) :
  (forall en, last (log st) = Some en -> is_open en = false) ->
  startLog now sect proj desc st = Normal tt (started now sect proj desc st).
Proof.
  intros Hidle. unfold startLog, started, mbind, M_bind, get_log.
  destruct st as [[|x l] cfg notes ups cleared calls]; simpl in *; [reflexivity |].
  rewrite slice_last.
  destruct (last (x :: l)) as [en|] eqn:Hlast.
  - simpl. specialize (Hidle en eq_refl). unfold is_open in Hidle.
    now rewrite Hidle.
  - now apply last_None in Hlast.
Qed.

(** After a [startLog], whatever it did, the last entry is open. *)
Lemma startLog_leaves_running (now sect proj desc : jsval) (st : state) :
  exists en, last (log (final (startLog now sect proj desc st))) = Some en
             /\ is_open en = true.
Proof.
  destruct (last (log st)) as [en|] eqn:Hlast.
  - destruct (is_open en) eqn:Hopen.
    + rewrite (startLog_running _ _ _ _ _ en) by assumption. eauto.
    + rewrite startLog_idle by (intros en' H; rewrite Hlast in H; now injection H as <-).
      simpl. rewrite last_snoc. eauto.
  - rewrite startLog_idle by (intros en' H; rewrite Hlast in H; discriminate).
    simpl. rewrite last_snoc. eauto.
Qed.

(** Claim C8.  When the last entry of the log exists and is open,
    [startLog] returns without changing anything; hence a [startLog] that
    follows a [startLog] leaves the state as the first one left it. *)
Theorem startLog_noop_when_running :
  (forall now sect proj desc st en,
     last (log st) = Some en -> Entry.e en = Open ->
     startLog now sect proj desc st = Normal tt st)
  /\ (forall now1 sect1 proj1 desc1 now2 sect2 proj2 desc2 st,
        startLog now2 sect2 proj2 desc2
          (final (startLog now1 sect1 proj1 desc1 st))
        = Normal tt (final (startLog now1 sect1 proj1 desc1 st))).
Proof.
  split.
  - intros now sect proj desc st en Hlast He.
    apply (startLog_running _ _ _ _ _ en Hlast).
    unfold is_open. rewrite He. reflexivity.
  - intros now1 sect1 proj1 desc1 now2 sect2 proj2 desc2 st.
    destruct (startLog_leaves_running now1 sect1 proj1 desc1 st) as (en & Hlast & Hopen).
    now apply (startLog_running _ _ _ _ _ en).
Qed.

Lemma startLog_noop_when_running_witness :
  startLog sample_now (VStr "work") (VStr "site") (VStr "spec")
    (state_of [closed_entry; open_entry])
  = Normal tt (state_of [closed_entry; open_entry]).
Proof.
  apply (proj1 startLog_noop_when_running sample_now (VStr "work") (VStr "site")
           (VStr "spec") (state_of [closed_entry; open_entry]) open_entry);
    reflexivity.
Defined.

(** ** endLog and resume on a log without entries *)

(** Claim C4.  On a log without entries [endLog] and [resume] both stop
    with a TypeError, raised by reading [e] of the missing last entry; the
    state is as it was. *)
Theorem endLog_resume_empty_throw (now : jsval) (cfg : ui)
    (notes : list string) (ups cleared : nat) (calls : list (string * jsval)) :
  endLog now (mkState [] cfg notes ups cleared calls)
  = Abrupt TypeError (mkState [] cfg notes ups cleared calls)
  /\ resume now None (mkState [] cfg notes ups cleared calls)
     = Abrupt TypeError (mkState [] cfg notes ups cleared calls).
Proof. split; reflexivity. Qed.

(** ** The invariant *)

Lemma log_invariant_nil : log_invariant [].
Proof. split; [simpl; lia | intros i en H; discriminate]. Qed.

Lemma filter_open_closed (l : list entry) :
  Forall (fun en => is_open en = false) l ->
  filter (fun en => is_open en = true) l = [].
Proof.
  induction 1 as [|en l Hen _ IH]; [reflexivity |].
  rewrite filter_cons_False by (rewrite Hen; discriminate). exact IH.
Qed.

(** A log with a last entry satisfies the invariant exactly when every
    entry before the last is closed. *)
Lemma log_invariant_snoc (l : list entry) (x : entry) :
  log_invariant (l ++ [x]) <-> Forall (fun en => is_open en = false) l.
Proof.
  split.
  - intros [_ Hlast]. apply Forall_lookup. intros i en Hi.
    destruct (is_open en) eqn:Hopen; [| reflexivity].
    pose proof (lookup_lt_Some _ _ _ Hi) as Hlt.
    specialize (Hlast i en (lookup_app_l_Some _ _ _ _ Hi) Hopen).
    rewrite length_app in Hlast. simpl in Hlast. lia.
  - intros Hclosed. split.
    + rewrite filter_app, filter_open_closed by assumption. simpl.
      pose proof (length_filter (fun en => is_open en = true) [x]) as Hle.
      simpl in Hle. exact Hle.
    + intros i en Hi Hopen. rewrite length_app. simpl.
      destruct (decide (i < length l)%nat) as [Hlt|Hge].
      * rewrite lookup_app_l in Hi by assumption.
        rewrite Forall_lookup in Hclosed.
        rewrite (Hclosed i en Hi) in Hopen. discriminate.
      * pose proof (lookup_lt_Some _ _ _ Hi) as Hlt.
        rewrite length_app in Hlt. simpl in Hlt. lia.
Qed.

Lemma log_invariant_test (l : list entry) :
  log_invariant l <-> log_invariantb l = true.
Proof.
  unfold log_invariantb.
  destruct l as [|x l _] using rev_ind.
  - split; [reflexivity | intros _; apply log_invariant_nil].
  - rewrite removelast_last, log_invariant_snoc, forallb_forall, Forall_forall.
    split; intros H en Hen.
    + apply list_elem_of_In in Hen. now rewrite (H en Hen).
    + apply list_elem_of_In in Hen. apply negb_true_iff. now apply H.
Qed.

(** Under the invariant, a closed last entry means that no entry is
    open. *)
Lemma log_invariant_all_closed (l : list entry) :
  log_invariant l ->
  (forall en, last l = Some en -> is_open en = false) ->
  Forall (fun en => is_open en = false) l.
Proof.
  intros Hinv Hlast. destruct l as [|x l _] using rev_ind; [constructor |].
  apply Forall_app. split.
  - now apply log_invariant_snoc in Hinv.
  - constructor; [| constructor]. apply Hlast, last_snoc.
Qed.

(** ** endLog and resume *)

Lemma endLog_log (now : jsval) (st : state) :
  log (final (endLog now st))
  = match last (log st) with
    | Some en =>
        if is_open en
        then alter (set_e now) (length (log st) - 1)%nat (log st)
        else log st
    | None => log st
    end.
Proof.
  unfold endLog, mbind, M_bind, get_log.
  rewrite slice_last, relative_index_last.
  destruct (last (log st)) as [en|]; [| reflexivity].
  unfold is_open. destruct (strict_eq (Entry.e en) Open); reflexivity.
Qed.

Lemma resume_last (now : jsval) (st : state) :
  resume now None st
  = match last (log st) with
    | Some en => if is_open en then Normal tt st
                 else Normal tt (resumed now en st)
    | None => Abrupt TypeError st
    end.
Proof.
  unfold resume, mbind, M_bind, get_log. simpl.
  rewrite slice_last.
  destruct (last (log st)) as [en|]; [| reflexivity].
  unfold is_open. destruct (strict_eq (Entry.e en) Open); reflexivity.
Qed.

Lemma addLog_added (convertDateTime : jsval -> jsval)
    (sect proj desc start end_ : jsval) (st : state) :
  addLog convertDateTime sect proj desc start end_ st
  = Normal tt (added convertDateTime sect proj desc start end_ st).
Proof. reflexivity. Qed.

(** Claim C6, as amended.  From a log that satisfies the invariant,
    [startLog], [endLog] and [resume] of the last entry leave a log that
    satisfies it, whether they return or throw; [addLog] leaves such a log
    exactly when no entry of the log was open. *)
Theorem log_invariant_preserved (st : state) :
  log_invariant (log st) ->
  (forall now sect proj desc,
     log_invariant (log (final (startLog now sect proj desc st))))
  /\ (forall now, log_invariant (log (final (endLog now st))))
  /\ (forall now, log_invariant (log (final (resume now None st))))
  /\ (forall convertDateTime sect proj desc start end_,
        log_invariant
          (log (final (addLog convertDateTime sect proj desc start end_ st)))
        <-> Forall (fun en => is_open en = false) (log st)).
Proof.
  intros Hinv. split; [| split; [| split]].
  - intros now sect proj desc.
    destruct (last (log st)) as [en|] eqn:Hlast.
    + destruct (is_open en) eqn:Hopen.
      * now rewrite (startLog_running _ _ _ _ _ en).
      * rewrite startLog_idle
          by (intros en' H; rewrite Hlast in H; now injection H as <-).
        simpl. apply log_invariant_snoc, log_invariant_all_closed; [exact Hinv |].
        intros en' H. rewrite Hlast in H. now injection H as <-.
    + rewrite startLog_idle by (intros en' H; rewrite Hlast in H; discriminate).
      apply last_None in Hlast. simpl. rewrite Hlast. simpl.
      apply (log_invariant_snoc []). constructor.
  - intros now. rewrite endLog_log.
    destruct (log st) as [|x l _] using rev_ind; [exact Hinv |].
    rewrite last_snoc. destruct (is_open x); [| exact Hinv].
    rewrite length_app. simpl.
    replace (length l + 1 - 1)%nat with (length l + 0)%nat by lia.
    rewrite alter_app_r. simpl.
    apply log_invariant_snoc. now apply log_invariant_snoc in Hinv.
  - intros now. rewrite resume_last.
    destruct (last (log st)) as [en|] eqn:Hlast; [| exact Hinv].
    destruct (is_open en) eqn:Hopen; [exact Hinv |].
    simpl. apply log_invariant_snoc, log_invariant_all_closed; [exact Hinv |].
    intros en' H. rewrite Hlast in H. now injection H as <-.
  - intros convertDateTime sect proj desc start end_.
    rewrite addLog_added. simpl. apply log_invariant_snoc.
Qed.

Lemma log_invariant_preserved_witness :
  (forall now sect proj desc,
     log_invariant
       (log (final (startLog now sect proj desc
                      (state_of [closed_entry; open_entry])))))
  /\ (forall now,
        log_invariant
          (log (final (endLog now (state_of [closed_entry; open_entry])))))
  /\ (forall now,
        log_invariant
          (log (final (resume now None (state_of [closed_entry; open_entry])))))
  /\ (forall convertDateTime sect proj desc start end_,
        log_invariant
          (log (final (addLog convertDateTime sect proj desc start end_
                         (state_of [closed_entry; open_entry]))))
        <-> Forall (fun en => is_open en = false)
                   (log (state_of [closed_entry; open_entry]))).
Proof.
  apply (log_invariant_preserved (state_of [closed_entry; open_entry])).
  apply log_invariant_test. vm_compute. reflexivity.
Defined.

(** [resume] called with an index, which the dispatcher never does, can
    append a second open entry. *)
Example resume_by_index_breaks_invariant :
  log_invariantb (log (state_of [closed_entry; open_entry])) = true
  /\ log_invariantb
       (log (final (resume sample_now (Some (Fin 0))
                      (state_of [closed_entry; open_entry])))) = false.
Proof. split; vm_compute; reflexivity. Qed.

(** Claim C6, as stated, fails for [addLog]: added after an open entry,
    the new entry becomes the last one and the open entry no longer is. *)
Lemma addLog_breaks_invariant :
  log_invariant (log (state_of [open_entry]))
  /\ ~ log_invariant
         (log (final (addLog sample_convert (VStr "A") (VStr "site")
                        (VStr "notes") (VStr "2018-01-01 09:00")
                        (VStr "2018-01-01 10:00") (state_of [open_entry])))).
Proof.
  split.
  - apply log_invariant_test. vm_compute. reflexivity.
  - intros H. apply log_invariant_test in H. vm_compute in H. discriminate.
Qed.

(** ** The dispatcher *)

(** [true === 'text'] is false, so under [switch (true)] no string clause
    is selected. *)
Lemma switch_true_string_clauses (L : LogObject) (cmd : Command) (st : state) :
  switch L cmd (VBool true)
    [on_edit; on_delete; on_set; on_import; on_export; on_rename; on_invert] st
  = Normal None st.
Proof. reflexivity. Qed.

Lemma switch_true_selects (L : LogObject) (cmd : Command) (st : state) :
  match switch L cmd (VBool true) clauses st with
  | Normal (Some cl) _ => string_clause cl = false
  | _ => True
  end.
Proof.
  destruct L as [[a|] [b|] [c|] [d|]];
    unfold clauses, switch, case_expr, mbind, M_bind, js_in, mret, M_ret, throw;
    cbn [Log_startOp Log_stopOp Log_resumeOp Log_addOp];
    repeat match goal with
           | |- context [array_has_property ?k ?arr] =>
               destruct (array_has_property k arr)
           end;
    try exact I; reflexivity.
Qed.

(** Claim C1.  On the [Log] object that console.js builds, [executeCmd]
    throws a TypeError for every command while it evaluates the first case
    expression, before any clause is selected and with the state as it
    was; and on any [Log] object, a clause with a string case expression
    is never the one selected. *)
Theorem executeCmd_throws_TypeError (convertDateTime : jsval -> jsval)
    (importUser exportUser : M unit) (now : jsval) (cmd : Command) (st : state) :
  switch Log cmd (VBool true) clauses st = Abrupt TypeError st
  /\ executeCmd convertDateTime importUser exportUser Log now cmd st
     = Abrupt TypeError st
  /\ forall L,
       match switch L cmd (VBool true) clauses st with
       | Normal (Some cl) _ => string_clause cl = false
       | _ => True
       end.
Proof.
  split; [reflexivity |]. split; [reflexivity |].
  intros L. apply switch_true_selects.
Qed.

(** Even on a [Log] object that has the alias arrays, [in] looks the
    operation up among the indices of the array: "start" selects nothing,
    and "0" selects the start clause. *)
Example executeCmd_with_aliases :
  switch Log_with_aliases (mkCommand "start" []) (VBool true) clauses (state_of [])
  = Normal None (state_of [])
  /\ switch Log_with_aliases (mkCommand "0" []) (VBool true) clauses (state_of [])
     = Normal (Some on_start) (state_of []).
Proof. split; vm_compute; reflexivity. Qed.

(** ** edit *)

Lemma edit_desc (convertDateTime : jsval -> jsval) (value : jsval)
    (en : entry) (cfg : ui) (notes : list string) (ups cleared : nat)
    (calls : list (string * jsval)) :
  edit convertDateTime (Fin 0) (VStr "desc") value
    (mkState [en] cfg notes ups cleared calls)
  = Normal tt (mkState [set_d value en] cfg notes (S ups) cleared calls).
Proof. reflexivity. Qed.

(** Claim C2, as amended.  The line [edit 1 desc "refactored"] parses to
    the operation "edit" with the single argument "refactored"; with every
    argument quoted it parses to the arguments "1", "desc", "refactored".
    On a log of one entry, the statements of the edit clause run on that
    command, and [edit] called with index 0, "desc" and "refactored", set
    the [d] of the entry to "refactored", change nothing else and call
    [Log.options.update] once. *)
Theorem edit_desc_sets_d (convertDateTime : jsval -> jsval)
    (importUser exportUser : M unit) (now : jsval)
    (en : entry) (cfg : ui) (notes : list string) (ups cleared : nat)
    (calls : list (string * jsval)) :
  parseCmd edit_line = Some (mkCommand "edit" ["refactored"])
  /\ parseCmd edit_line_quoted = Some (mkCommand "edit" ["1"; "desc"; "refactored"])
  /\ clause_body convertDateTime importUser exportUser now
       (mkCommand "edit" ["1"; "desc"; "refactored"]) on_edit
       (mkState [en] cfg notes ups cleared calls)
     = Normal tt (mkState [set_d (VStr "refactored") en] cfg notes (S ups)
                          cleared calls)
  /\ edit convertDateTime (Fin 0) (VStr "desc") (VStr "refactored")
       (mkState [en] cfg notes ups cleared calls)
     = Normal tt (mkState [set_d (VStr "refactored") en] cfg notes (S ups)
                          cleared calls).
Proof.
  split; [vm_compute; reflexivity |]. split; [vm_compute; reflexivity |].
  split; reflexivity.
Qed.

(** Claim C2, as stated, fails: the line is parsed to a command with one
    argument, and executing it throws a TypeError; the description is not
    changed and the refresh signal is not sent. *)
Lemma edit_line_not_applied :
  let r := parse_and_execute sample_convert (mret tt) (mret tt) Log sample_now
             edit_line (state_of [closed_entry]) in
  r = Abrupt TypeError (state_of [closed_entry])
  /\ ~ (Entry.d <$> log (final r) !! 0%nat = Some (VStr "refactored")
        /\ updates (final r) = 1%nat).
Proof.
  split; [vm_compute; reflexivity |].
  intros [H _]. vm_compute in H. discriminate.
Qed.

(** ** delete *)

(** Property X15.  [delete (id)] with [1 <= id <= length]: the entry at index [id - 1]
    goes, the one before the entry that [id] names. *)
Lemma delete_removes_predecessor (z : Z) (st : state) :
  1 <= z <= Z.of_nat (length (log st)) ->
  log (final (delete (Fin z) st))
  = take (Z.to_nat (z - 1)) (log st) ++ drop (Z.to_nat z) (log st).
Proof.
  intros Hz. unfold delete, mbind, M_bind, get_log. simpl.
  unfold splice, relative_index.
  destruct (z - 1 <? 0) eqn:Hneg; [lia |].
  change (Z.max 1 0) with 1.
  f_equal; f_equal; lia.
Qed.

(** Property X16.  [delete (0)] removes the last entry. *)
Lemma delete_zero_removes_last (st : state) :
  log (final (delete (Fin 0) st)) = removelast (log st).
Proof.
  unfold delete, mbind, M_bind, get_log. simpl.
  unfold splice. change (0 - 1) with (-1). rewrite relative_index_last.
  destruct (log st) as [|x l _] using rev_ind; [reflexivity |].
  rewrite removelast_last, length_app. simpl.
  replace (length l + 1 - 1)%nat with (length l) by lia.
  rewrite take_app_length.
  rewrite drop_ge by (rewrite length_app; simpl; lia).
  now rewrite app_nil_r.
Qed.

(** Claim C3.  The command [delete "1"] on a log of three entries:
    [executeCmd] throws a TypeError and removes nothing; the statements of
    the delete clause themselves remove the last entry, not the first, and
    for [delete "3"] they remove the second entry, not the third. *)
Theorem delete_row_removes_other_entry (convertDateTime : jsval -> jsval)
    (importUser exportUser : M unit) (now : jsval)
    (a b c : entry) (cfg : ui) (notes : list string) (ups cleared : nat)
    (calls : list (string * jsval)) :
  executeCmd convertDateTime importUser exportUser Log now
    (mkCommand "delete" ["1"]) (mkState [a; b; c] cfg notes ups cleared calls)
  = Abrupt TypeError (mkState [a; b; c] cfg notes ups cleared calls)
  /\ clause_body convertDateTime importUser exportUser now
       (mkCommand "delete" ["1"]) on_delete
       (mkState [a; b; c] cfg notes ups cleared calls)
     = Normal tt (mkState [a; b] cfg notes (S ups) cleared calls)
  /\ clause_body convertDateTime importUser exportUser now
       (mkCommand "delete" ["3"]) on_delete
       (mkState [a; b; c] cfg notes ups cleared calls)
     = Normal tt (mkState [a; c] cfg notes (S ups) cleared calls).
Proof. repeat split; reflexivity. Qed.

(** ** rename *)

Lemma strict_eq_VStr (a b : string) :
  a <> b -> strict_eq (VStr a) (VStr b) = false.
Proof. intros H. apply bool_decide_eq_false. congruence. Qed.

(** The membership test [category in [...]] looks [category] up among the
    indices of the array, so "sector" fails it and [rename] returns at
    once; a category that passes it is none of the four names tested
    afterwards. *)
Lemma rename_returns (category oldName newName : jsval) (st : state) :
  rename category oldName newName st = Normal tt st.
Proof.
  unfold rename, mbind, M_bind, js_in, mret, M_ret, get_log.
  destruct category as [| [|] | name]; try reflexivity.
  destruct (decide (name = "sector")) as [-> | H1]; [reflexivity |].
  destruct (decide (name = "sec")) as [-> | H2]; [reflexivity |].
  destruct (decide (name = "project")) as [-> | H3]; [reflexivity |].
  destruct (decide (name = "pro")) as [-> | H4]; [reflexivity |].
  rewrite !strict_eq_VStr by assumption.
  destruct (array_has_property _ _); reflexivity.
Qed.

(** Claim C5.  [rename] with the category "sector" changes no entry and
    sends no notification, whether or not an entry has the old name as its
    sector: it returns with the state as it was. *)
Theorem rename_sector_changes_nothing (oldName newName : jsval) (st : state) :
  rename (VStr "sector") oldName newName st = Normal tt st.
Proof. apply rename_returns. Qed.

(** The scenario of the claim: a log with sectors "A" and "C". *)
Example rename_sector_A_B :
  rename (VStr "sector") (VStr "A") (VStr "B")
    (state_of [closed_entry; second_entry])
  = Normal tt (state_of [closed_entry; second_entry])
  /\ rename (VStr "sector") (VStr "Z") (VStr "B")
       (state_of [closed_entry; second_entry])
     = Normal tt (state_of [closed_entry; second_entry]).
Proof. split; apply rename_returns. Qed.

(** * Further properties of the parser *)

(** Property X1.  The empty line and a line that begins with a space have the empty
    string as their first token and are rejected. *)
Theorem parseCmd_rejects_blank (rest : string) :
  parseCmd EmptyString = None /\ parseCmd (String space rest) = None.
Proof. split; reflexivity. Qed.

Lemma between_quotes_length (segs : list string) :
  length (between_quotes segs) = Nat.div2 (pred (length segs)).
Proof.
  remember (length segs) as n eqn:Hn. revert segs Hn.
  induction n as [n IH] using lt_wf_ind. intros segs Hn.
  destruct segs as [|a [|b [|c rest]]]; subst n; [reflexivity.. |].
  change (between_quotes (a :: b :: c :: rest)) with (b :: between_quotes (c :: rest)).
  cbn [length]. rewrite (IH (length (c :: rest)) ltac:(simpl; lia) (c :: rest) eq_refl).
  reflexivity.
Qed.

(** Property X2.  Every two quotes commit one argument: a line with [n] quotes yields
    [n / 2] arguments, rounded down. *)
Theorem quotedArgs_length (str : string) :
  length (quotedArgs str) = Nat.div2 (count_quotes str).
Proof.
  rewrite quotedArgs_segments, between_quotes_length, split_quote_length.
  reflexivity.
Qed.

(** Property X3.  No committed argument holds a double quote. *)
Theorem quotedArgs_no_quote (str : string) (a : string) :
  a ∈ quotedArgs str -> quote_free a = true.
Proof.
  intros Ha. pose proof (quotedArgs_quote_free str) as Hall.
  rewrite Forall_forall in Hall. now apply Hall.
Qed.

Lemma quotedArgs_no_quote_witness : quote_free "a b" = true.
Proof.
  apply (quotedArgs_no_quote dangling_line "a b").
  vm_compute. apply list_elem_of_here.
Defined.

(** Outside a quoted block the buffer [arg] is empty. *)
Lemma scan_outside_arg (str : string) (st : scan) :
  (sc_quoteStart st = false -> sc_arg st = EmptyString) ->
  sc_quoteStart (scan_chars st str) = false ->
  sc_arg (scan_chars st str) = EmptyString.
Proof.
  revert st. induction str as [|ch str IH]; intros st Hst; simpl; [exact Hst |].
  apply IH. unfold scan_step.
  destruct (Ascii.eqb ch dquote), st as [acc [] buf]; simpl in *;
    (discriminate || auto).
Qed.

(** After a text with an even number of quotes the loop is outside a
    quoted block, with the arguments of that text committed. *)
Lemma scan_even (pre : string) :
  Nat.even (count_quotes pre) = true ->
  scan_chars scan_init pre = mkScan (quotedArgs pre) false EmptyString.
Proof.
  intros Heven.
  pose proof (scan_quoteStart pre scan_init) as Hflag.
  rewrite <- Nat.negb_even, Heven in Hflag. simpl in Hflag.
  pose proof (scan_outside_arg pre scan_init (fun _ => eq_refl) Hflag) as Harg.
  unfold quotedArgs.
  destruct (scan_chars scan_init pre) as [acc flag buf]. simpl in *.
  now subst.
Qed.

(** Property X4.  The arguments of two texts put together are the arguments of the
    first followed by those of the second, provided the first leaves no
    quote unmatched. *)
Theorem quotedArgs_app (pre post : string) :
  Nat.even (count_quotes pre) = true ->
  quotedArgs (pre +:+ post) = quotedArgs pre ++ quotedArgs post.
Proof.
  intros Heven. unfold quotedArgs at 1.
  rewrite scan_chars_app, scan_even by exact Heven.
  rewrite (proj1 (scan_args_segments post)). now rewrite (quotedArgs_segments post).
Qed.

Lemma quotedArgs_app_witness :
  quotedArgs (("start " +:+ quoted "work") +:+ (" " +:+ quoted "site"))
  = quotedArgs ("start " +:+ quoted "work") ++ quotedArgs (" " +:+ quoted "site").
Proof. apply quotedArgs_app. vm_compute. reflexivity. Defined.

(** Property X5.  Text without a quote that stands between two quoted blocks, or before
    the first, changes nothing: the blocks need no separator and any
    separator is ignored. *)
Theorem quotedArgs_stray_text (pre junk post : string) :
  Nat.even (count_quotes pre) = true ->
  quote_free junk = true ->
  quotedArgs (pre +:+ junk +:+ post) = quotedArgs (pre +:+ post).
Proof.
  intros Heven Hjunk. unfold quotedArgs.
  rewrite !scan_chars_app, scan_even by exact Heven.
  now rewrite (scan_outside_quote_free junk).
Qed.

Lemma quotedArgs_stray_text_witness :
  quotedArgs (("add " +:+ quoted "work") +:+ ", then " +:+ quoted "site")
  = quotedArgs (("add " +:+ quoted "work") +:+ quoted "site").
Proof. apply quotedArgs_stray_text; vm_compute; reflexivity. Defined.

(** Property X6.  A command whose operation is in the table and whose arguments hold no
    quote is read back from the line rebuilt from it, whether or not it
    came from a parse. *)
Theorem rebuild_parseCmd (cmd : Command) :
  operation cmd ∈ possibleOperations ->
  Forall (fun a => quote_free a = true) (args cmd) ->
  parseCmd (rebuild cmd) = Some cmd.
Proof.
  destruct cmd as [op xs]. simpl. intros Hop Hxs.
  pose proof possibleOperations_shape as Hshape.
  rewrite Forall_forall in Hshape.
  destruct (Hshape op Hop) as (Hlow & Hfree & Htok).
  unfold rebuild. simpl.
  assert (Hfirst : toLowerCase (first_token (op +:+ rebuild_args xs)) = op)
    by (now rewrite first_token_rebuild).
  rewrite parseCmd_accepts by (now rewrite Hfirst).
  now rewrite Hfirst, quotedArgs_rebuild.
Qed.

Lemma rebuild_parseCmd_witness :
  parseCmd (rebuild (mkCommand "rename" ["sector"; "A"; "B c"]))
  = Some (mkCommand "rename" ["sector"; "A"; "B c"]).
Proof.
  apply rebuild_parseCmd.
  - vm_compute. repeat (apply list_elem_of_here || apply list_elem_of_further).
  - repeat constructor.
Defined.

(** * Further properties of the handlers *)

(** ** Starting, stopping and resuming *)

Lemma endLog_last (now : jsval) (st : state) :
  endLog now st
  = match last (log st) with
    | Some en => if is_open en then Normal tt (ended now en st)
                 else Normal tt st
    | None => Abrupt TypeError st
    end.
Proof.
  unfold endLog, ended, mbind, M_bind, get_log.
  rewrite slice_last, relative_index_last.
  destruct (log st) as [|x l _] using rev_ind; [reflexivity |].
  rewrite last_snoc, removelast_last, length_app. simpl.
  replace (length l + 1 - 1)%nat with (length l + 0)%nat by lia.
  rewrite alter_app_r. simpl.
  unfold is_open. destruct (strict_eq (Entry.e x) Open); reflexivity.
Qed.

(** Property X7.  On a log whose last entry is open, [endLog] writes [now] into the [e]
    of that entry and of no other, calls [clearInterval] once, sends the
    "Log ended" message and signals one refresh. *)
Theorem endLog_closes_last (now : jsval) (st : state) (en : entry) :
  last (log st) = Some en -> is_open en = true ->
  endLog now st = Normal tt (ended now en st).
Proof. intros Hlast Hopen. now rewrite endLog_last, Hlast, Hopen. Qed.

Lemma endLog_closes_last_witness :
  endLog sample_now (state_of [closed_entry; open_entry])
  = Normal tt (ended sample_now open_entry (state_of [closed_entry; open_entry])).
Proof. apply endLog_closes_last; reflexivity. Defined.

(** Property X8.  On a log whose last entry is closed, [endLog] returns without any
    effect: no entry changes, the timer is not cleared and nothing is
    signalled. *)
Theorem endLog_noop_when_closed (now : jsval) (st : state) (en : entry) :
  last (log st) = Some en -> is_open en = false ->
  endLog now st = Normal tt st.
Proof. intros Hlast Hclosed. now rewrite endLog_last, Hlast, Hclosed. Qed.

Lemma endLog_noop_when_closed_witness :
  endLog sample_now (state_of [closed_entry])
  = Normal tt (state_of [closed_entry]).
Proof. apply (endLog_noop_when_closed _ _ closed_entry); reflexivity. Defined.

(** Property X9.  [startLog] on a log with no running entry, then [endLog]: the log has
    gained one entry that runs from the first time stamp to the second,
    both messages were sent, the timer was cleared once and two refreshes
    were signalled. *)
Theorem startLog_then_endLog (now1 now2 sect proj desc : jsval) (st : state) :
  (forall en, last (log st) = Some en -> is_open en = false) ->
  endLog now2 (final (startLog now1 sect proj desc st))
  = Normal tt
      (mkState (log st ++ [Entry.mk now1 now2 sect proj desc]) (config_ui st)
               (notifications st
                ++ [Log_started sect proj desc;
                    Log_ended (Entry.mk now1 Open sect proj desc)])
               (S (S (updates st))) (S (timer_cleared st)) (option_calls st)).
Proof.
  intros Hidle. rewrite startLog_idle by exact Hidle.
  rewrite endLog_last. unfold started, ended. simpl.
  rewrite last_snoc, removelast_last, <- app_assoc. reflexivity.
Qed.

Lemma startLog_then_endLog_witness :
  endLog (VStr "5c1f11")
    (final (startLog sample_now (VStr "work") (VStr "site") (VStr "spec")
              (state_of [closed_entry])))
  = Normal tt
      (mkState
         (log (state_of [closed_entry])
          ++ [Entry.mk sample_now (VStr "5c1f11") (VStr "work") (VStr "site")
                       (VStr "spec")])
         (config_ui (state_of [closed_entry]))
         (notifications (state_of [closed_entry])
          ++ [Log_started (VStr "work") (VStr "site") (VStr "spec");
              Log_ended (Entry.mk sample_now Open (VStr "work") (VStr "site")
                                  (VStr "spec"))])
         (S (S (updates (state_of [closed_entry]))))
         (S (timer_cleared (state_of [closed_entry])))
         (option_calls (state_of [closed_entry]))).
Proof.
  apply startLog_then_endLog.
  intros en H. vm_compute in H. injection H as <-. reflexivity.
Defined.

(** Property X10.  [endLog] on a running log, then [resume]: provided the time stamp
    written by [endLog] is not the sentinel 'undefined', the log gains a
    new open entry with the sector, project and description of the entry
    just closed, which itself keeps its new end. *)
Theorem endLog_then_resume (now1 now2 : jsval) (st : state) (en : entry) :
  last (log st) = Some en -> is_open en = true -> now1 <> Open ->
  resume now2 None (final (endLog now1 st))
  = Normal tt (resumed now2 (set_e now1 en) (ended now1 en st)).
Proof.
  intros Hlast Hopen Hnow.
  rewrite endLog_last, Hlast, Hopen. simpl.
  rewrite resume_last. unfold ended at 1. simpl. rewrite last_snoc.
  unfold is_open, strict_eq. simpl.
  now rewrite bool_decide_eq_false_2.
Qed.

Lemma endLog_then_resume_witness :
  resume (VStr "5c1f11") None
    (final (endLog sample_now (state_of [closed_entry; open_entry])))
  = Normal tt
      (resumed (VStr "5c1f11") (set_e sample_now open_entry)
         (ended sample_now open_entry (state_of [closed_entry; open_entry]))).
Proof. apply endLog_then_resume; [reflexivity | reflexivity | discriminate]. Defined.

(** Property X11.  [startLog] and [resume], with or without an index, only ever append:
    the log they leave is the old log followed by at most one entry, and
    that entry is open. *)
Theorem startLog_resume_append_only (st : state) :
  (forall now sect proj desc,
     exists tl, log (final (startLog now sect proj desc st)) = log st ++ tl
                /\ (length tl <= 1)%nat
                /\ Forall (fun en => is_open en = true) tl)
  /\ (forall now id,
        exists tl, log (final (resume now id st)) = log st ++ tl
                   /\ (length tl <= 1)%nat
                   /\ Forall (fun en => is_open en = true) tl).
Proof.
  split.
  - intros now sect proj desc.
    destruct (last (log st)) as [en|] eqn:Hlast; [destruct (is_open en) eqn:Hopen |].
    + rewrite (startLog_running _ _ _ _ _ en) by assumption.
      exists []. rewrite app_nil_r. repeat split; [simpl; lia | constructor].
    + rewrite startLog_idle
        by (intros en' H; rewrite Hlast in H; now injection H as <-).
      eexists [_]. repeat split; [simpl; lia | repeat constructor].
    + rewrite startLog_idle by (intros en' H; rewrite Hlast in H; discriminate).
      eexists [_]. repeat split; [simpl; lia | repeat constructor].
  - intros now id. unfold resume, mbind, M_bind, get_log.
    destruct (head (slice (log st) (default (Fin (-1)) id))) as [en|].
    + destruct (strict_eq (Entry.e en) Open).
      * exists []. rewrite app_nil_r. repeat split; [simpl; lia | constructor].
      * eexists [_]. repeat split; [simpl; lia | repeat constructor].
    + exists []. rewrite app_nil_r. repeat split; [simpl; lia | constructor].
Qed.

(** ** delete *)

Lemma log_invariant_closed (l : list entry) :
  Forall (fun en => is_open en = false) l -> log_invariant l.
Proof.
  destruct l as [|x l _] using rev_ind; intros H; [apply log_invariant_nil |].
  apply log_invariant_snoc. now apply Forall_app in H as [H _].
Qed.

(** Cutting a run of entries out of a log keeps the invariant. *)
Lemma log_invariant_cut (l1 l2 l3 : list entry) :
  log_invariant (l1 ++ l2 ++ l3) -> log_invariant (l1 ++ l3).
Proof.
  destruct l3 as [|x l3 _] using rev_ind.
  - rewrite !app_nil_r.
    destruct l2 as [|y l2 _] using rev_ind; [now rewrite app_nil_r |].
    rewrite app_assoc. intros H. apply log_invariant_snoc in H.
    apply log_invariant_closed. now apply Forall_app in H as [H _].
  - rewrite !app_assoc. intros H. apply log_invariant_snoc in H.
    apply log_invariant_snoc.
    rewrite <- app_assoc in H.
    apply Forall_app in H as [H1 H23]. apply Forall_app in H23 as [_ H3].
    now apply Forall_app.
Qed.

Lemma splice_cut {A} (l : list A) (start : num) (deleteCount : Z) :
  exists l1 l2 l3, l = l1 ++ l2 ++ l3 /\ splice l start deleteCount = l1 ++ l3.
Proof.
  unfold splice.
  set (k := relative_index start (length l)).
  set (n := Z.to_nat _).
  exists (take k l), (take n (drop k l)), (drop (k + n) l). split; [| reflexivity].
  rewrite <- drop_drop, take_drop, take_drop. reflexivity.
Qed.

(** Property X12.  [delete] keeps the invariant of the log, whatever its argument. *)
Theorem delete_preserves_invariant (id : num) (st : state) :
  log_invariant (log st) -> log_invariant (log (final (delete id st))).
Proof.
  intros Hinv. unfold delete, mbind, M_bind, get_log. simpl.
  destruct (splice_cut (log st) (num_sub id 1) 1) as (l1 & l2 & l3 & Hl & ->).
  rewrite Hl in Hinv. now apply log_invariant_cut in Hinv.
Qed.

Lemma delete_preserves_invariant_witness :
  log_invariant
    (log (final (delete (Fin 1) (state_of [closed_entry; open_entry])))).
Proof.
  apply delete_preserves_invariant.
  apply log_invariant_test. vm_compute. reflexivity.
Defined.

(** Property X13.  [delete] with an id beyond the length of the log removes nothing, and
    still signals a refresh. *)
Theorem delete_beyond_end (z : Z) (st : state) :
  Z.of_nat (length (log st)) < z ->
  delete (Fin z) st = Normal tt (refreshed st).
Proof.
  intros Hz. unfold delete, refreshed, mbind, M_bind, get_log, put_log,
    options_update. simpl. do 2 f_equal.
  unfold splice, relative_index.
  destruct (z - 1 <? 0) eqn:Hneg; [lia |].
  rewrite Z.min_r by lia. rewrite Nat2Z.id, Nat.sub_diag.
  change (Z.to_nat _) with 0%nat. rewrite Nat.add_0_r.
  now rewrite take_drop.
Qed.

Lemma delete_beyond_end_witness :
  delete (Fin 5) (state_of [closed_entry; second_entry])
  = Normal tt (refreshed (state_of [closed_entry; second_entry])).
Proof. apply delete_beyond_end. vm_compute. reflexivity. Defined.

(** Property X14.  [delete] with [NaN], the id that a row number which is not numeric
    becomes, removes the first entry. *)
Theorem delete_NaN_removes_first (st : state) :
  log (final (delete NaN st)) = drop 1 (log st).
Proof.
  unfold delete, mbind, M_bind, get_log. simpl.
  unfold splice. cbn [num_sub relative_index].
  destruct (log st) as [|x l]; [reflexivity |].
  cbn [length take app Nat.add].
  replace (Z.to_nat (Z.min (Z.max 1 0) (Z.of_nat (S (length l) - 0)))) with 1%nat
    by lia.
  reflexivity.
Qed.

Lemma delete_removes_predecessor_witness :
  log (final (delete (Fin 2) (state_of [closed_entry; second_entry; open_entry])))
  = take (Z.to_nat (2 - 1)) (log (state_of [closed_entry; second_entry; open_entry]))
    ++ drop (Z.to_nat 2) (log (state_of [closed_entry; second_entry; open_entry])).
Proof. apply delete_removes_predecessor. vm_compute. split; discriminate. Defined.

(** Property X17.  [addLog], then [delete] with the new length of the log as id: the log
    is as it was before the two calls. *)
Theorem addLog_then_delete (convertDateTime : jsval -> jsval)
    (sect proj desc start end_ : jsval) (st : state) :
  log (final (delete (Fin (Z.of_nat (S (length (log st)))))
                (final (addLog convertDateTime sect proj desc start end_ st))))
  = log st.
Proof.
  rewrite addLog_added. unfold delete, added, mbind, M_bind, get_log.
  cbn [final log put_log options_update num_sub].
  unfold splice, relative_index. rewrite length_app. cbn [length].
  destruct (Z.of_nat (S (length (log st))) - 1 <? 0) eqn:Hneg;
    [apply Z.ltb_lt in Hneg; lia |].
  replace (Z.to_nat (Z.min (Z.of_nat (S (length (log st))) - 1)
                           (Z.of_nat (length (log st) + 1))))
    with (length (log st)) by lia.
  rewrite take_app_length.
  rewrite drop_ge by (rewrite length_app; simpl; lia).
  apply app_nil_r.
Qed.

(** ** resume with an index *)

Lemma slice_head_index {A} (l : list A) (z : Z) :
  0 <= z -> head (slice l (Fin z)) = l !! Z.to_nat z.
Proof.
  intros Hz. unfold slice, relative_index.
  destruct (z <? 0) eqn:Hneg; [lia |].
  rewrite head_lookup, lookup_drop, Nat.add_0_r.
  destruct (decide (z < Z.of_nat (length l))) as [Hlt | Hge].
  - now rewrite Z.min_l by lia.
  - rewrite Z.min_r by lia. rewrite Nat2Z.id.
    rewrite !lookup_ge_None_2 by lia. reflexivity.
Qed.

(** Property X18.  [resume] called with an index that is not negative: a closed entry at
    that index is copied into a new open entry at the end of the log; an
    open entry there makes the call return without effect; an index past
    the end makes it throw a TypeError.  No case looks at the last entry. *)
Theorem resume_at_index (now : jsval) (z : Z) (st : state) :
  0 <= z ->
  resume now (Some (Fin z)) st
  = match log st !! Z.to_nat z with
    | Some en => if is_open en then Normal tt st
                 else Normal tt (resumed now en st)
    | None => Abrupt TypeError st
    end.
Proof.
  intros Hz. unfold resume, mbind, M_bind, get_log. simpl.
  rewrite slice_head_index by exact Hz.
  destruct (log st !! Z.to_nat z) as [en|]; [| reflexivity].
  unfold is_open. destruct (strict_eq (Entry.e en) Open); reflexivity.
Qed.

Lemma resume_at_index_witness :
  resume sample_now (Some (Fin 0)) (state_of [closed_entry; open_entry])
  = match log (state_of [closed_entry; open_entry]) !! Z.to_nat 0 with
    | Some en => if is_open en
                 then Normal tt (state_of [closed_entry; open_entry])
                 else Normal tt (resumed sample_now en
                                   (state_of [closed_entry; open_entry]))
    | None => Abrupt TypeError (state_of [closed_entry; open_entry])
    end.
Proof. apply resume_at_index. discriminate. Defined.

(** ** edit *)

Lemma assign_in_range (z : Z) (setter : jsval -> entry -> entry)
    (value : jsval) (st : state) :
  0 <= z < Z.of_nat (length (log st)) ->
  assign (Fin z) setter value st
  = Normal tt (mkState (alter (setter value) (Z.to_nat z) (log st))
                       (config_ui st) (notifications st) (updates st)
                       (timer_cleared st) (option_calls st)).
Proof.
  intros Hz. unfold assign, index, mbind, M_bind, get_log.
  destruct (z <? 0) eqn:Hneg; [lia |].
  destruct (log st !! Z.to_nat z) eqn:Hlook; [reflexivity |].
  apply lookup_ge_None in Hlook. lia.
Qed.

Lemma assign_out_of_range (id : num) (setter : jsval -> entry -> entry)
    (value : jsval) (st : state) :
  index (log st) id = None ->
  assign id setter value st = Abrupt TypeError st.
Proof.
  intros Hnone. unfold assign, mbind, M_bind, get_log.
  destruct id as [|z]; [reflexivity |]. now rewrite Hnone.
Qed.

(** Evaluates the comparisons of an attribute that is a known text and
    takes the branch they select. *)
Ltac eval_tests :=
  repeat match goal with
         | |- context [bool_decide ?P] =>
             let b := eval vm_compute in (bool_decide P) in
             change (bool_decide P) with b
         end;
  cbv beta zeta; cbn [orb].

(** Property X19.  [edit] with an index inside the log applies the setter that the
    attribute names to the entry at that index, leaves every other entry
    alone and signals one refresh. *)
Theorem edit_in_range (convertDateTime : jsval -> jsval) (z : Z)
    (value : jsval) (st : state) :
  0 <= z < Z.of_nat (length (log st)) ->
  (forall attr, attr ∈ ["sec"; "sector"] ->
     edit convertDateTime (Fin z) (VStr attr) value st
     = Normal tt (edited (set_c value) (Z.to_nat z) st))
  /\ (forall attr, attr ∈ ["title"; "pro"; "project"] ->
        edit convertDateTime (Fin z) (VStr attr) value st
        = Normal tt (edited (set_t value) (Z.to_nat z) st))
  /\ (forall attr, attr ∈ ["desc"; "dsc"; "description"] ->
        edit convertDateTime (Fin z) (VStr attr) value st
        = Normal tt (edited (set_d value) (Z.to_nat z) st))
  /\ edit convertDateTime (Fin z) (VStr "start") value st
     = Normal tt (edited (set_s (convertDateTime value)) (Z.to_nat z) st)
  /\ edit convertDateTime (Fin z) (VStr "end") value st
     = Normal tt (edited (set_e (convertDateTime value)) (Z.to_nat z) st).
Proof.
  intros Hz.
  repeat split; try intros attr Hattr;
    repeat (apply elem_of_cons in Hattr as [-> | Hattr]);
    try (now apply elem_of_nil in Hattr);
    unfold edit, strict_eq, mbind, M_bind; eval_tests;
    rewrite assign_in_range by exact Hz; reflexivity.
Qed.

Lemma edit_in_range_witness :
  (forall attr, attr ∈ ["sec"; "sector"] ->
     edit sample_convert (Fin 1) (VStr attr) (VStr "B")
       (state_of [closed_entry; second_entry])
     = Normal tt (edited (set_c (VStr "B")) (Z.to_nat 1)
                    (state_of [closed_entry; second_entry])))
  /\ (forall attr, attr ∈ ["title"; "pro"; "project"] ->
        edit sample_convert (Fin 1) (VStr attr) (VStr "B")
          (state_of [closed_entry; second_entry])
        = Normal tt (edited (set_t (VStr "B")) (Z.to_nat 1)
                       (state_of [closed_entry; second_entry])))
  /\ (forall attr, attr ∈ ["desc"; "dsc"; "description"] ->
        edit sample_convert (Fin 1) (VStr attr) (VStr "B")
          (state_of [closed_entry; second_entry])
        = Normal tt (edited (set_d (VStr "B")) (Z.to_nat 1)
                       (state_of [closed_entry; second_entry])))
  /\ edit sample_convert (Fin 1) (VStr "start") (VStr "B")
       (state_of [closed_entry; second_entry])
     = Normal tt (edited (set_s (sample_convert (VStr "B"))) (Z.to_nat 1)
                    (state_of [closed_entry; second_entry]))
  /\ edit sample_convert (Fin 1) (VStr "end") (VStr "B")
       (state_of [closed_entry; second_entry])
     = Normal tt (edited (set_e (sample_convert (VStr "B"))) (Z.to_nat 1)
                    (state_of [closed_entry; second_entry])).
Proof. apply edit_in_range. vm_compute. split; [discriminate | reflexivity]. Defined.

(** Property X20.  [edit] with a known attribute and an index that names no entry (a
    negative or too large number, or [NaN]) throws a TypeError and leaves
    the state as it was: no refresh is signalled. *)
Theorem edit_out_of_range (convertDateTime : jsval -> jsval) (id : num)
    (attr : string) (value : jsval) (st : state) :
  index (log st) id = None -> attr ∈ edit_attrs ->
  edit convertDateTime id (VStr attr) value st = Abrupt TypeError st.
Proof.
  intros Hnone Hattr. unfold edit_attrs in Hattr.
  repeat (apply elem_of_cons in Hattr as [-> | Hattr]);
    try (now apply elem_of_nil in Hattr);
    unfold edit, strict_eq, mbind, M_bind; eval_tests;
    rewrite assign_out_of_range by exact Hnone; reflexivity.
Qed.

Lemma edit_out_of_range_witness :
  edit sample_convert NaN (VStr "desc") (VStr "refactored")
    (state_of [closed_entry])
  = Abrupt TypeError (state_of [closed_entry]).
Proof.
  apply edit_out_of_range; [reflexivity |].
  vm_compute. repeat (apply list_elem_of_here || apply list_elem_of_further).
Defined.

(** Property X21.  [edit] with an attribute that is none of the ten names returns
    without any effect, whatever the index: an index that names no entry
    is not even noticed. *)
Theorem edit_unknown_attr (convertDateTime : jsval -> jsval) (id : num)
    (attr value : jsval) (st : state) :
  attr ∉ (VStr <$> edit_attrs) ->
  edit convertDateTime id attr value st = Normal tt st.
Proof.
  intros Hattr. unfold edit, strict_eq.
  rewrite !bool_decide_eq_false_2;
    [reflexivity | intros ->; apply Hattr; vm_compute;
                   repeat (apply list_elem_of_here || apply list_elem_of_further) ..].
Qed.

Lemma edit_unknown_attr_witness :
  edit sample_convert NaN (VStr "colour") (VStr "red") (state_of [])
  = Normal tt (state_of []).
Proof.
  apply edit_unknown_attr. vm_compute. intros H.
  repeat (apply elem_of_cons in H as [H | H]; [discriminate |]).
  now apply elem_of_nil in H.
Defined.

(** Property X22.  The statements of the edit clause throw a TypeError, before [edit] is
    called, when the command has fewer than two arguments. *)
Theorem edit_clause_missing_args (convertDateTime : jsval -> jsval)
    (importUser exportUser : M unit) (now : jsval) (cmd : Command) (st : state) :
  (length (args cmd) < 2)%nat ->
  clause_body convertDateTime importUser exportUser now cmd on_edit st
  = Abrupt TypeError st.
Proof.
  intros Hlen. unfold clause_body, mbind, M_bind, arg_at.
  destruct (args cmd) as [|a [|b xs]]; simpl in *; [reflexivity | reflexivity | lia].
Qed.

Lemma edit_clause_missing_args_witness :
  clause_body sample_convert (mret tt) (mret tt) sample_now
    (mkCommand "edit" ["refactored"]) on_edit (state_of [closed_entry])
  = Abrupt TypeError (state_of [closed_entry]).
Proof. apply edit_clause_missing_args. simpl. lia. Defined.

(** ** invert, set and rename *)

(** Property X23.  [invert] twice gives the palette back; each call signals a refresh. *)
Theorem invert_twice (l : list entry) (u : ui) (notes : list string)
    (ups cleared : nat) (calls : list (string * jsval)) :
  invert (final (invert (mkState l u notes ups cleared calls)))
  = Normal tt (mkState l u notes (S (S ups)) cleared calls).
Proof. destruct u as [b c]. reflexivity. Qed.


(** Property X25.  [rename] returns without any effect for every category, "project"
    and the short names included. *)
Theorem rename_any_category (category oldName newName : jsval) (st : state) :
  rename category oldName newName st = Normal tt st.
Proof. apply rename_returns. Qed.

(** ** The dispatcher on the commands of the parser *)

Lemma pretty_N_char_digit (x : N) : is_digit (pretty_N_char x) = true.
Proof. unfold pretty_N_char. repeat case_match; reflexivity. Qed.

Lemma pretty_N_go_digits (x : N) (str : string) :
  digits_only str = true -> digits_only (pretty_N_go x str) = true.
Proof.
  revert str. induction (N.lt_wf_0 x) as [x _ IH]; intros str Hstr.
  destruct (decide (x = 0)%N) as [-> | Hx]; [now rewrite pretty_N_go_0 |].
  rewrite pretty_N_go_step by lia.
  apply IH; [apply N.div_lt; lia |].
  simpl. now rewrite pretty_N_char_digit.
Qed.

Lemma pretty_nat_digits (n : nat) : digits_only (pretty n) = true.
Proof.
  unfold pretty, pretty_nat, pretty, pretty_N.
  case_decide; [reflexivity | now apply pretty_N_go_digits].
Qed.

(** No name of the table is a property name of an array. *)
Lemma possibleOperations_keys :
  Forall (fun op => digits_only op = false
                    /\ bool_decide (op = "length") = false
                    /\ bool_decide (op ∈ inherited_keys) = false)
         possibleOperations.
Proof. repeat (constructor; [repeat split; vm_compute; reflexivity |]). constructor. Qed.

Lemma operation_not_property (op : string) (arr : list string) :
  op ∈ possibleOperations -> array_has_property op arr = false.
Proof.
  intros Hop. pose proof possibleOperations_keys as Hkeys.
  rewrite Forall_forall in Hkeys.
  destruct (Hkeys op Hop) as (Hdig & Hlen & Hinh).
  unfold array_has_property. rewrite Hlen, Hinh, !orb_false_r.
  apply bool_decide_eq_false. intros Hin.
  apply list_elem_of_fmap in Hin as (i & -> & _).
  now rewrite pretty_nat_digits in Hdig.
Qed.

(** Property X26.  Whatever the alias properties of [Log] are, [undefined] or arrays of
    any strings, a command that [parseCmd] returns changes nothing when it
    is executed: [executeCmd] throws a TypeError or selects no clause, and
    the state is as it was. *)
Theorem executeCmd_parsed_no_effect (convertDateTime : jsval -> jsval)
    (importUser exportUser : M unit) (now : jsval) (L : LogObject)
    (str : string) (cmd : Command) (st : state) :
  parseCmd str = Some cmd ->
  executeCmd convertDateTime importUser exportUser L now cmd st
  = Abrupt TypeError st
  \/ executeCmd convertDateTime importUser exportUser L now cmd st
     = Normal tt st.
Proof.
  intros H. apply parseCmd_Some in H as (_ & Hop & _).
  destruct L as [[a|] [b|] [c|] [d|]];
    unfold executeCmd, clauses, switch, case_expr, mbind, M_bind, js_in, mret,
      M_ret, throw;
    cbn [Log_startOp Log_stopOp Log_resumeOp Log_addOp];
    rewrite ?operation_not_property by exact Hop;
    auto.
Qed.

Lemma executeCmd_parsed_no_effect_witness :
  executeCmd sample_convert (mret tt) (mret tt) Log_with_aliases sample_now
    (mkCommand "start" ["work"; "build feature"]) (state_of [])
  = Abrupt TypeError (state_of [])
  \/ executeCmd sample_convert (mret tt) (mret tt) Log_with_aliases sample_now
       (mkCommand "start" ["work"; "build feature"]) (state_of [])
     = Normal tt (state_of []).
Proof.
  apply (executeCmd_parsed_no_effect _ _ _ _ _
           ("START " +:+ quoted "work" +:+ " " +:+ quoted "build feature")).
  vm_compute. reflexivity.
Defined.
